(** * httpcheck.js: the HTTP status checker of cli-toolbox

    A shallow embedding of [src/httpcheck.js] and the properties of its
    argument parser, its retrying and redirect-following [checkURL], its
    bounded dispatcher [runChecks], its summary and its CSV export.

    Conventions of the embedding.
    - JavaScript numbers that the program handles are integers
      (status codes, milliseconds, lengths, counts); they are modelled
      as [Z], exact below 2^53.  [NaN] appears only as a result of
      [parseInt] and of a division by zero.
    - JavaScript strings are modelled as [string], a sequence of
      characters below U+0100; [trim] and [parseInt] strip the white
      space of ECMAScript that lies in that range, and [toUpperCase]
      acts on the ASCII letters.
    - [null] and [undefined] of an optional string are both [None]: the
      program only ever tests such values for truthiness.
    - The network and the URL parser of the runtime are not part of the
      program: the URL parser is a parameter, and each call of
      [checkURL] consumes a script of what the http client does with
      the successive requests: it refuses the request, or makes it and
      reports a response, an error or a timeout.  The request that a
      timeout destroys is reported as failed by the runtime as well, so
      that both handlers of the program run for it. *)

From Stdlib Require Import ZArith Ascii String List Bool Lia.
From stdpp Require Import base list strings gmap pretty.
Import ListNotations.
Open Scope string_scope.
Open Scope list_scope.
Open Scope Z_scope.

(** ** JavaScript values and built-ins *)

Module JS.

(** The result of [parseInt] and of [Math.round]. *)
Inductive Num := NaN | Int (z : Z).

Inductive Value :=
| Undefined
| Null
| Boolean (b : bool)
| Number (n : Num)
| Str (s : string)
| Function (name : string).

(** ToBoolean. *)
Definition truthy (v : Value) : bool :=
  match v with
  | Undefined | Null => false
  | Boolean b => b
  | Number NaN => false
  | Number (Int z) => negb (z =? 0)
  | Str s => negb (String.eqb s "")
  | Function _ => true
  end.

(** [n || d] on numbers. *)
Definition num_or (n : Num) (d : Z) : Z :=
  match n with
  | NaN => d
  | Int z => if z =? 0 then d else z
  end.

(** [s || d] on an optional string. *)
Definition str_or (s : option string) (d : string) : string :=
  match s with
  | Some (String c r) => String c r
  | _ => d
  end.

(** Truthiness of an optional string. *)
Definition str_truthy (s : option string) : bool :=
  match s with
  | Some (String _ _) => true
  | _ => false
  end.

Definition dquote : ascii := ascii_of_nat 34.
Definition newline : ascii := ascii_of_nat 10.
Definition escape : ascii := ascii_of_nat 27.

(** WhiteSpace and LineTerminator of ECMAScript below U+0100: TAB, LF,
    VT, FF, CR, SP and NBSP. *)
Definition is_white_space (c : ascii) : bool :=
  let n := nat_of_ascii c in
  ((9 <=? n) && (n <=? 13))%nat || (n =? 32)%nat || (n =? 160)%nat.

Fixpoint trimStart (s : string) : string :=
  match s with
  | String c r => if is_white_space c then trimStart r else s
  | EmptyString => EmptyString
  end.

Fixpoint trimEnd (s : string) : string :=
  match s with
  | EmptyString => EmptyString
  | String c r =>
      match trimEnd r with
      | EmptyString => if is_white_space c then EmptyString else String c EmptyString
      | r' => String c r'
      end
  end.

Definition trim (s : string) : string := trimEnd (trimStart s).

Definition upper_char (c : ascii) : ascii :=
  let n := nat_of_ascii c in
  if ((97 <=? n) && (n <=? 122))%nat then ascii_of_nat (n - 32) else c.

Fixpoint toUpperCase (s : string) : string :=
  match s with
  | EmptyString => EmptyString
  | String c r => String (upper_char c) (toUpperCase r)
  end.

Fixpoint startsWith (s p : string) : bool :=
  match p, s with
  | EmptyString, _ => true
  | String a p', String b s' => Ascii.eqb a b && startsWith s' p'
  | String _ _, EmptyString => false
  end.

Fixpoint includes_char (s : string) (c : ascii) : bool :=
  match s with
  | EmptyString => false
  | String a r => Ascii.eqb a c || includes_char r c
  end.

(** [s.split(c)] for a one-character separator. *)
Fixpoint split (c : ascii) (s : string) : list string :=
  match s with
  | EmptyString => [EmptyString]
  | String a r =>
      if Ascii.eqb a c then EmptyString :: split c r
      else match split c r with
           | x :: l => String a x :: l
           | [] => [String a EmptyString]
           end
  end.

(** [l.join(sep)]. *)
Fixpoint join (sep : string) (l : list string) : string :=
  match l with
  | [] => EmptyString
  | [x] => x
  | x :: l' => x +:+ sep +:+ join sep l'
  end.

(** The value of a digit in the given radix, as [parseInt] reads it. *)
Definition digit_value (radix : Z) (c : ascii) : option Z :=
  let n := Z.of_nat (nat_of_ascii c) in
  let v := if (48 <=? n) && (n <=? 57) then Some (n - 48)
           else if (97 <=? n) && (n <=? 122) then Some (n - 87)
           else if (65 <=? n) && (n <=? 90) then Some (n - 55)
           else None in
  match v with
  | Some d => if d <? radix then Some d else None
  | None => None
  end.

(** The longest prefix of digits; [None] when there is no digit. *)
Fixpoint parse_digits (radix : Z) (s : string) (acc : option Z) : option Z :=
  match s with
  | EmptyString => acc
  | String c r =>
      match digit_value radix c with
      | Some d => parse_digits radix r (Some (radix * default 0 acc + d))
      | None => acc
      end
  end.

(** [parseInt(s)] without a radix argument: leading white space, a sign,
    an optional [0x] prefix, then the longest prefix of digits. *)
Definition parseInt (s : string) : Num :=
  let s1 := trimStart s in
  let '(sign, s2) :=
    match s1 with
    | String "-" r => (-1, r)
    | String "+" r => (1, r)
    | _ => (1, s1)
    end in
  let '(radix, s3) :=
    match s2 with
    | String "0" (String "x" r) => (16, r)
    | String "0" (String "X" r) => (16, r)
    | _ => (10, s2)
    end in
  match parse_digits radix s3 None with
  | None => NaN
  | Some n => Int (sign * n)
  end.

(** [parseInt(args[i])] where the index may be past the end: the
    argument is then [undefined], which [parseInt] reads as the string
    ["undefined"]. *)
Definition parseInt_arg (a : option string) : Num :=
  match a with
  | Some s => parseInt s
  | None => parseInt "undefined"
  end.

(** [String(n)] for an integer. *)
Definition num_to_string (z : Z) : string := pretty z.

(** [obj[k] = v] for a string [v] on an object created by [{}], whose
    own properties are [obj].  The name [__proto__] is that of an
    accessor inherited from [Object.prototype], whose setter ignores a
    value that is neither an object nor [null]: the assignment stores
    nothing.  Every other name becomes, or stays, an own property. *)
Definition set_property (k v : string) (obj : gmap string string) : gmap string string :=
  if String.eqb k "__proto__" then obj else <[k := v]> obj.

(** [Math.round(a / b)] for integers [a] and [b > 0]: the quotient
    rounded to the nearest integer, a half rounded up; [0 / 0] is [NaN]. *)
Definition round_div (a b : Z) : Num :=
  if b =? 0 then NaN else Int ((2 * a + b) / (2 * b)).

End JS.

(** ** Data model *)

(** The fields of a [URL] object that the program reads. *)
Record ParsedURL := {
  protocol : string;
  hostname : string;
  port : string;
  pathname : string;
  search : string
}.

(** The object built by [parseArgs]. *)
Record Options := {
  urls : list string;
  file : option string;
  timeout : Z;
  retries : Z;
  followRedirects : bool;
  maxRedirects : Z;
  method : string;
  headers : gmap string string;
  output : option string;
  format : string;
  concurrent : Z;
  verbose : bool;
  quiet : bool
}.

Definition default_options : Options := {|
  urls := [];
  file := None;
  timeout := 10000;
  retries := 1;
  followRedirects := true;
  maxRedirects := 10;
  method := "GET";
  headers := ∅;
  output := None;
  format := "table";
  concurrent := 5;
  verbose := false;
  quiet := false
|}.

Definition set_urls (v : list string) (o : Options) : Options :=
  Build_Options v (file o) (timeout o) (retries o) (followRedirects o)
    (maxRedirects o) (method o) (headers o) (output o) (format o)
    (concurrent o) (verbose o) (quiet o).
Definition set_file (v : option string) (o : Options) : Options :=
  Build_Options (urls o) v (timeout o) (retries o) (followRedirects o)
    (maxRedirects o) (method o) (headers o) (output o) (format o)
    (concurrent o) (verbose o) (quiet o).
Definition set_timeout (v : Z) (o : Options) : Options :=
  Build_Options (urls o) (file o) v (retries o) (followRedirects o)
    (maxRedirects o) (method o) (headers o) (output o) (format o)
    (concurrent o) (verbose o) (quiet o).
Definition set_retries (v : Z) (o : Options) : Options :=
  Build_Options (urls o) (file o) (timeout o) v (followRedirects o)
    (maxRedirects o) (method o) (headers o) (output o) (format o)
    (concurrent o) (verbose o) (quiet o).
Definition set_followRedirects (v : bool) (o : Options) : Options :=
  Build_Options (urls o) (file o) (timeout o) (retries o) v
    (maxRedirects o) (method o) (headers o) (output o) (format o)
    (concurrent o) (verbose o) (quiet o).
Definition set_maxRedirects (v : Z) (o : Options) : Options :=
  Build_Options (urls o) (file o) (timeout o) (retries o) (followRedirects o)
    v (method o) (headers o) (output o) (format o)
    (concurrent o) (verbose o) (quiet o).
Definition set_method (v : string) (o : Options) : Options :=
  Build_Options (urls o) (file o) (timeout o) (retries o) (followRedirects o)
    (maxRedirects o) v (headers o) (output o) (format o)
    (concurrent o) (verbose o) (quiet o).
Definition set_headers (v : gmap string string) (o : Options) : Options :=
  Build_Options (urls o) (file o) (timeout o) (retries o) (followRedirects o)
    (maxRedirects o) (method o) v (output o) (format o)
    (concurrent o) (verbose o) (quiet o).
Definition set_output (v : option string) (o : Options) : Options :=
  Build_Options (urls o) (file o) (timeout o) (retries o) (followRedirects o)
    (maxRedirects o) (method o) (headers o) v (format o)
    (concurrent o) (verbose o) (quiet o).
Definition set_format (v : string) (o : Options) : Options :=
  Build_Options (urls o) (file o) (timeout o) (retries o) (followRedirects o)
    (maxRedirects o) (method o) (headers o) (output o) v
    (concurrent o) (verbose o) (quiet o).
Definition set_concurrent (v : Z) (o : Options) : Options :=
  Build_Options (urls o) (file o) (timeout o) (retries o) (followRedirects o)
    (maxRedirects o) (method o) (headers o) (output o) (format o)
    v (verbose o) (quiet o).
Definition set_verbose (v : bool) (o : Options) : Options :=
  Build_Options (urls o) (file o) (timeout o) (retries o) (followRedirects o)
    (maxRedirects o) (method o) (headers o) (output o) (format o)
    (concurrent o) v (quiet o).
Definition set_quiet (v : bool) (o : Options) : Options :=
  Build_Options (urls o) (file o) (timeout o) (retries o) (followRedirects o)
    (maxRedirects o) (method o) (headers o) (output o) (format o)
    (concurrent o) (verbose o) v.

(** One entry of [result.redirects]. *)
Record Redirect := {
  from : string;
  to : string;
  redirect_status : Z
}.

(** The object [checkURL] resolves with.  [error] is [None] for [null]. *)
Record CheckResult := {
  url : string;
  status : Z;
  statusText : string;
  responseTime : Z;
  size : Z;
  result_headers : gmap string string;
  redirects : list Redirect;
  error : option string
}.

(** [STATUS_CODES[code] || 'Unknown']. *)
Definition STATUS_CODES (code : Z) : option string :=
  match code with
  | 200 => Some "OK"
  | 201 => Some "Created"
  | 204 => Some "No Content"
  | 301 => Some "Moved Permanently"
  | 302 => Some "Found"
  | 304 => Some "Not Modified"
  | 400 => Some "Bad Request"
  | 401 => Some "Unauthorized"
  | 403 => Some "Forbidden"
  | 404 => Some "Not Found"
  | 405 => Some "Method Not Allowed"
  | 500 => Some "Internal Server Error"
  | 502 => Some "Bad Gateway"
  | 503 => Some "Service Unavailable"
  | 504 => Some "Gateway Timeout"
  | _ => None
  end.

(** Terminal colour codes. *)
Module COLORS.
Definition reset : string := String JS.escape "[0m".
Definition bright : string := String JS.escape "[1m".
Definition dim : string := String JS.escape "[2m".
Definition red : string := String JS.escape "[31m".
Definition green : string := String JS.escape "[32m".
Definition yellow : string := String JS.escape "[33m".
Definition blue : string := String JS.escape "[34m".
Definition magenta : string := String JS.escape "[35m".
Definition cyan : string := String JS.escape "[36m".
Definition gray : string := String JS.escape "[90m".
End COLORS.

(** ** A small executable URL parser

    The program takes its URL parser from the runtime.  The theorems
    below hold for every parser; this instance, which reads absolute
    [http:] and [https:] URLs and resolves absolute locations and
    absolute paths, is the one the examples run on. *)

Module SimpleURL.

Fixpoint drop_prefix (p s : string) : option string :=
  match p, s with
  | EmptyString, _ => Some s
  | String a p', String b s' => if Ascii.eqb a b then drop_prefix p' s' else None
  | String _ _, EmptyString => None
  end.

(** Splits at the first character satisfying [stop]. *)
Fixpoint span (stop : ascii -> bool) (s : string) : string * string :=
  match s with
  | EmptyString => (EmptyString, EmptyString)
  | String c r =>
      if stop c then (EmptyString, s)
      else let '(a, b) := span stop r in (String c a, b)
  end.

Fixpoint all_chars (ok : ascii -> bool) (s : string) : bool :=
  match s with
  | EmptyString => true
  | String c r => ok c && all_chars ok r
  end.

Definition is_digit (c : ascii) : bool :=
  let n := nat_of_ascii c in ((48 <=? n) && (n <=? 57))%nat.

Definition host_char (c : ascii) : bool :=
  let n := nat_of_ascii c in
  ((33 <=? n) && (n <=? 126))%nat
  && negb (Ascii.eqb c "/") && negb (Ascii.eqb c "?") && negb (Ascii.eqb c "#")
  && negb (Ascii.eqb c ":") && negb (Ascii.eqb c "@").

Definition parse_after (proto rest : string) : option ParsedURL :=
  let '(authority, tail) :=
    span (fun c => Ascii.eqb c "/" || Ascii.eqb c "?" || Ascii.eqb c "#") rest in
  let '(host, port_part) := span (fun c => Ascii.eqb c ":") authority in
  let port :=
    match port_part with
    | String _ p => p
    | EmptyString => EmptyString
    end in
  let '(path, tail') := span (fun c => Ascii.eqb c "?" || Ascii.eqb c "#") tail in
  let '(query, _) := span (fun c => Ascii.eqb c "#") tail' in
  match host with
  | EmptyString => None
  | _ =>
      if all_chars host_char host && all_chars is_digit port then
        Some {| protocol := proto;
                hostname := host;
                port := port;
                pathname := match path with EmptyString => "/" | _ => path end;
                search := match query with String _ EmptyString => EmptyString | _ => query end |}
      else None
  end.

Definition parse (s : string) : option ParsedURL :=
  match drop_prefix "https://" s with
  | Some rest => parse_after "https:" rest
  | None =>
      match drop_prefix "http://" s with
      | Some rest => parse_after "http:" rest
      | None => None
      end
  end.

Definition origin (u : ParsedURL) : string :=
  protocol u +:+ "//" +:+ hostname u +:+
  match port u with EmptyString => EmptyString | p => ":" +:+ p end.

Definition href (u : ParsedURL) : string :=
  origin u +:+ pathname u +:+ search u.

(** [new URL(location, base).toString()]. *)
Definition resolve (location base : string) : option string :=
  match parse location with
  | Some u => Some (href u)
  | None =>
      match parse base, location with
      | Some b, String "/" _ =>
          match parse (origin b +:+ location) with
          | Some u => Some (href u)
          | None => None
          end
      | _, _ => None
      end
  end.

End SimpleURL.

(** ** Reading a CSV document back

    The reader against which the export is measured, after RFC 4180:
    records end at a line break, fields are separated by commas, a field
    that starts with a double quote runs to its closing double quote, a
    doubled double quote inside it stands for one, and a double quote
    elsewhere is an error. *)

Module CSV.

Inductive State :=
| FieldStart    (* at the start of a field *)
| Unquoted      (* inside a field without quotes *)
| Quoted        (* inside a quoted field *)
| QuoteSeen.    (* after a double quote met inside a quoted field *)

Definition push (c : ascii) (field : string) : string :=
  field +:+ String c EmptyString.

(** [fields] are the fields read so far in the record, [records] the
    records read so far. *)
Fixpoint parse_from (st : State) (field : string) (fields : list string)
    (records : list (list string)) (s : string) : option (list (list string)) :=
  match s with
  | EmptyString =>
      match st with
      | FieldStart =>
          match fields with
          | [] => Some records
          | _ => Some (records ++ [fields ++ [field]])
          end
      | Unquoted | QuoteSeen => Some (records ++ [fields ++ [field]])
      | Quoted => None
      end
  | String c r =>
      match st with
      | FieldStart =>
          if Ascii.eqb c JS.dquote then parse_from Quoted EmptyString fields records r
          else if Ascii.eqb c "," then
            parse_from FieldStart EmptyString (fields ++ [field]) records r
          else if Ascii.eqb c JS.newline then
            parse_from FieldStart EmptyString [] (records ++ [fields ++ [field]]) r
          else parse_from Unquoted (push c field) fields records r
      | Unquoted =>
          if Ascii.eqb c JS.dquote then None
          else if Ascii.eqb c "," then
            parse_from FieldStart EmptyString (fields ++ [field]) records r
          else if Ascii.eqb c JS.newline then
            parse_from FieldStart EmptyString [] (records ++ [fields ++ [field]]) r
          else parse_from Unquoted (push c field) fields records r
      | Quoted =>
          if Ascii.eqb c JS.dquote then parse_from QuoteSeen field fields records r
          else parse_from Quoted (push c field) fields records r
      | QuoteSeen =>
          if Ascii.eqb c JS.dquote then parse_from Quoted (push c field) fields records r
          else if Ascii.eqb c "," then
            parse_from FieldStart EmptyString (fields ++ [field]) records r
          else if Ascii.eqb c JS.newline then
            parse_from FieldStart EmptyString [] (records ++ [fields ++ [field]]) r
          else None
      end
  end.

Definition parse (s : string) : option (list (list string)) :=
  parse_from FieldStart EmptyString [] [] s.

End CSV.

(** The six values a row of the export stands for. *)
Definition csv_fields (r : CheckResult) : list string :=
  [ url r; JS.num_to_string (status r); statusText r;
    JS.num_to_string (responseTime r); JS.num_to_string (size r);
    JS.str_or (error r) "" ].

Definition csv_header_fields : list string :=
  [ "URL"; "Status"; "Status Text"; "Response Time (ms)"; "Size (bytes)"; "Error" ].

(** ** Status classes

    The classes of the summary, read off the first digit of the code. *)

Inductive StatusClass :=
| NoResponse       (* 0 *)
| Success          (* 2xx *)
| Redirection      (* 3xx *)
| ClientError      (* 4xx *)
| ServerError      (* 5xx *)
| Unclassified.    (* anything else *)

Definition status_class (code : Z) : StatusClass :=
  if code =? 0 then NoResponse
  else if code / 100 =? 2 then Success
  else if code / 100 =? 3 then Redirection
  else if code / 100 =? 4 then ClientError
  else if code / 100 =? 5 then ServerError
  else Unclassified.

Definition in_class (c : StatusClass) (code : Z) : bool :=
  match status_class code, c with
  | NoResponse, NoResponse | Success, Success | Redirection, Redirection
  | ClientError, ClientError | ServerError, ServerError
  | Unclassified, Unclassified => true
  | _, _ => false
  end.

(** ** The program *)

Section Httpcheck.

(** [new URL(s)]: [None] when the constructor throws. *)
Variable URL_parse : string -> option ParsedURL.
(** [new URL(location, base).toString()]: [None] when it throws. *)
Variable URL_resolve : string -> string -> option string.

(** *** parseArgs *)

Definition isValidURL (s : string) : bool :=
  match URL_parse s with
  | Some _ => true
  | None => false
  end.

(** What [parseArgs] prints before [process.exit(0)]. *)
Inductive ExitNotice := ShowHelp | ShowVersion.

Inductive ParseStep :=
| StepExit (notice : ExitNotice)
| StepNext (o : Options) (consumed : bool).

Inductive ParseResult :=
| Exited (notice : ExitNotice)
| Parsed (o : Options).

(** The body of the [--header] branch. *)
Definition add_header (header : option string) (o : Options) : Options :=
  match header with
  | Some h =>
      if JS.str_truthy header && JS.includes_char h ":" then
        match JS.split ":" h with
        | key :: valueParts =>
            set_headers
              (JS.set_property (JS.trim key) (JS.trim (JS.join ":" valueParts)) (headers o)) o
        | [] => o
        end
      else o
  | None => o
  end.

(** One iteration of the [for] loop on [arg = args[i]]; [next] is
    [args[i + 1]], and [consumed] tells whether the branch ran [++i]. *)
Definition parseArgs_step (o : Options) (arg : string) (next : option string) : ParseStep :=
  if String.eqb arg "--help" || String.eqb arg "-h" then StepExit ShowHelp
  else if String.eqb arg "--version" || String.eqb arg "-v" then StepExit ShowVersion
  else if String.eqb arg "--file" || String.eqb arg "-f" then
    StepNext (set_file next o) true
  else if String.eqb arg "--timeout" || String.eqb arg "-t" then
    StepNext (set_timeout (JS.num_or (JS.parseInt_arg next) 10000) o) true
  else if String.eqb arg "--retries" || String.eqb arg "-r" then
    StepNext (set_retries (JS.num_or (JS.parseInt_arg next) 1) o) true
  else if String.eqb arg "--no-redirect" then
    StepNext (set_followRedirects false o) false
  else if String.eqb arg "--max-redirects" then
    StepNext (set_maxRedirects (JS.num_or (JS.parseInt_arg next) 10) o) true
  else if String.eqb arg "--method" || String.eqb arg "-m" then
    StepNext (set_method (JS.toUpperCase (JS.str_or next "GET")) o) true
  else if String.eqb arg "--header" || String.eqb arg "-H" then
    StepNext (add_header next o) true
  else if String.eqb arg "--output" || String.eqb arg "-o" then
    StepNext (set_output next o) true
  else if String.eqb arg "--format" then
    StepNext (set_format (JS.str_or next "table") o) true
  else if String.eqb arg "--concurrent" || String.eqb arg "-c" then
    StepNext (set_concurrent (JS.num_or (JS.parseInt_arg next) 5) o) true
  else if String.eqb arg "--verbose" || String.eqb arg "-V" then
    StepNext (set_verbose true o) false
  else if String.eqb arg "--quiet" || String.eqb arg "-q" then
    StepNext (set_quiet true o) false
  else if negb (JS.startsWith arg "-") && isValidURL arg then
    StepNext (set_urls (urls o ++ [arg]) o) false
  else StepNext o false.

(** The [for] loop from index [i] on, [args] being what is left of
    [process.argv.slice(2)] from that index. *)
Fixpoint parseArgs_loop (o : Options) (args : list string) : ParseResult :=
  match args with
  | [] => Parsed o
  | arg :: rest =>
      match parseArgs_step o arg (head rest) with
      | StepExit notice => Exited notice
      | StepNext o' true =>
          match rest with
          | [] => Parsed o'
          | _ :: rest' => parseArgs_loop o' rest'
          end
      | StepNext o' false => parseArgs_loop o' rest
      end
  end.

Definition parseArgs (argv : list string) : ParseResult :=
  parseArgs_loop default_options argv.

(** *** checkURL *)

Inductive Protocol := Http | Https.

(** [parsedURL.port || (parsedURL.protocol === 'https:' ? 443 : 80)]. *)
Inductive Port := PortString (s : string) | PortNumber (n : Z).

(** The object handed to [protocol.request]. *)
Record RequestOptions := {
  req_hostname : string;
  req_port : Port;
  req_path : string;
  req_method : string;
  req_headers : gmap string string;
  req_timeout : Z
}.

(** The [http.ClientRequest] returned by [protocol.request]. *)
Record ClientRequest := {
  request_module : Protocol;
  request_options : RequestOptions
}.

(** Property lookup on a [ClientRequest].  The object carries what the
    runtime puts there from the request options; neither the runtime nor
    the program defines a [_redirectCount] on it, so that lookup, like
    that of any other name, is [undefined]. *)
Definition ClientRequest_get (req : ClientRequest) (name : string) : JS.Value :=
  if String.eqb name "method" then JS.Str (req_method (request_options req))
  else if String.eqb name "path" then JS.Str (req_path (request_options req))
  else if String.eqb name "host" then JS.Str (req_hostname (request_options req))
  else if String.eqb name "protocol" then
    JS.Str (match request_module req with Https => "https:" | Http => "http:" end)
  else if String.eqb name "timeout" then
    JS.Number (JS.Int (req_timeout (request_options req)))
  else JS.Undefined.

(** The [res] handed to the response callback; [res.req] is the request
    the response answers. *)
Record IncomingMessage := {
  statusCode : Z;
  res_headers : gmap string string;
  res_req : ClientRequest
}.

(** What the http client does with one request.  Which options it
    refuses, and what the network answers, is for the runtime to say:
    the script says it. *)
Inductive Outcome :=
| Responded (code : Z) (hdrs : gmap string string) (body : string) (elapsed : Z)
    (* response callback at [startTime + elapsed], then 'end' with the
       buffered [body] *)
| Failed (message : string) (elapsed : Z)
    (* 'error' with [error.message], at [startTime + elapsed] *)
| TimedOut
    (* 'timeout'; the request that the handler then destroys gets an
       'error' (socket hang up) from the runtime as well *)
| Refused (message : string).
    (* [protocol.request] throws: the client refuses the options, as it
       does a negative timeout and a method or a header name that is no
       HTTP token; no request is made *)

(** What the program is seen doing on the way. *)
Inductive Event :=
| Request (target : string) (attempt : Z) (req : ClientRequest)
| Backoff (ms : Z).

(** How the promise returned by [checkURL] ends. *)
Inductive Settlement :=
| Resolved (result : CheckResult)
| Rejected (message : string)
    (* the [async] function threw, or the executor of its promise did *)
| Escaped (message : string)
    (* an exception left a callback, or a rejection had no handler: the
       promise is never settled *)
| Pending.
    (* the script ends while a request is outstanding: the client
       reports nothing more on it, as when the connection closes in the
       middle of a response *)

Definition make_requestOptions (parsedURL : ParsedURL) (options : Options) : RequestOptions := {|
  req_hostname := hostname parsedURL;
  req_port :=
    match port parsedURL with
    | String c r => PortString (String c r)
    | EmptyString =>
        PortNumber (if String.eqb (protocol parsedURL) "https:" then 443 else 80)
    end;
  req_path := pathname parsedURL +:+ search parsedURL;
  req_method := method options;
  req_headers :=
    headers options ∪
    <["User-Agent" := "httpcheck/1.0.0"]>
      (<["Accept" := "*/*"]> (<["Connection" := "close"]> ∅));
  req_timeout := timeout options
|}.

(** [protocol.request(requestOptions, ...)], when the client accepts
    the options: the request object.  When it refuses them, which the
    outcome [Refused] of the script says, it throws instead. *)
Definition protocol_request (protocol : Protocol) (requestOptions : RequestOptions)
    : ClientRequest :=
  {| request_module := protocol; request_options := requestOptions |}.

(** The request [checkURL] makes for a parsed URL. *)
Definition request_of (parsedURL : ParsedURL) (options : Options) : ClientRequest :=
  let protocol := if String.eqb (protocol parsedURL) "https:" then Https else Http in
  let requestOptions := make_requestOptions parsedURL options in
  protocol_request protocol requestOptions.

(** [(res.req?._redirectCount || 0) + 1], on the values the property
    lookup can give: a number or [undefined]. *)
Definition redirectCount_of (res : IncomingMessage) : Z :=
  match ClientRequest_get (res_req res) "_redirectCount" with
  | JS.Number (JS.Int n) => (if n =? 0 then 0 else n) + 1
  | _ => 0 + 1
  end.

(** [[301, 302, 307, 308].includes(code)]. *)
Definition is_redirect_status (code : Z) : bool :=
  (code =? 301) || (code =? 302) || (code =? 307) || (code =? 308).

(** [p.then(resolve)] and [p.then(redirectResult => ...)]: a rejection
    of [p] has no handler. *)
Definition then_ (p : Settlement) (f : CheckResult -> CheckResult) : Settlement :=
  match p with
  | Resolved r => Resolved (f r)
  | Rejected m => Escaped m
  | Escaped m => Escaped m
  | Pending => Pending
  end.

(** The body that the 'error' and the 'timeout' handler share: while
    attempts are left, a timer of [1000 * attempt] ms and then
    [checkURL(url, options, attempt + 1).then(resolve)], whose run is
    [retry]; otherwise [resolve(failed)]. *)
Definition retry_or_resolve (options : Options) (attempt : Z)
    (retry : list Event * Settlement) (failed : CheckResult)
    : list Event * Settlement :=
  if attempt <? retries options then
    (Backoff (1000 * attempt) :: fst retry, then_ (snd retry) (fun r => r))
  else ([], Resolved failed).

(** Two handlers that both hold [resolve]: the promise takes the first
    settlement; a later call of [resolve] does nothing. *)
Definition first_settled (p q : Settlement) : Settlement :=
  match p with
  | Pending => q
  | _ => p
  end.

(** [checkURL(url, options, attempt)], run against the outcomes of the
    requests it makes, in order.  After a timeout both handlers run,
    'timeout' first and 'error' at once after it, and below the last
    attempt each starts a retry of its own: the two retries are the same
    request made at the same time, and the script gives both the same
    outcomes.  Their events are listed one retry after the other. *)
Fixpoint checkURL (url : string) (options : Options) (attempt : Z)
    (script : list Outcome) : list Event * Settlement :=
  match URL_parse url with
  | None => ([], Rejected "Invalid URL")
  | Some parsedURL =>
      let req := request_of parsedURL options in
      match script with
      | [] => ([Request url attempt req], Pending)
      | Refused message :: _ => ([], Rejected message)
      | Responded code hdrs body elapsed :: script' =>
          let res := {| statusCode := code; res_headers := hdrs; res_req := req |} in
          let result := {|
            url := url;
            status := statusCode res;
            statusText := default "Unknown" (STATUS_CODES (statusCode res));
            responseTime := elapsed;
            size := Z.of_nat (String.length body);
            result_headers := res_headers res;
            redirects := [];
            error := None |} in
          if followRedirects options
             && is_redirect_status (statusCode res)
             && JS.str_truthy (res_headers res !! "location")
          then
            let redirectCount := redirectCount_of res in
            if redirectCount <=? maxRedirects options then
              match URL_resolve (default "" (res_headers res !! "location")) url with
              | None => ([Request url attempt req], Escaped "Invalid URL")
              | Some redirectURL =>
                  let hop := {| from := url; to := redirectURL;
                                redirect_status := statusCode res |} in
                  let '(events, settled) := checkURL redirectURL options 1 script' in
                  (Request url attempt req :: events,
                   then_ settled (fun redirectResult => {|
                     url := url;
                     status := status redirectResult;
                     statusText := statusText redirectResult;
                     responseTime := responseTime result + responseTime redirectResult;
                     size := size redirectResult;
                     result_headers := result_headers redirectResult;
                     redirects := (redirects result ++ [hop]) ++ redirects redirectResult;
                     error := error result |}))
              end
            else ([Request url attempt req], Resolved result)
          else ([Request url attempt req], Resolved result)
      | Failed message elapsed :: script' =>
          let on_error :=
            retry_or_resolve options attempt (checkURL url options (attempt + 1) script')
              {| url := url;
                 status := 0;
                 statusText := "Error";
                 responseTime := elapsed;
                 size := 0;
                 result_headers := ∅;
                 redirects := [];
                 error := Some message |} in
          (Request url attempt req :: fst on_error, snd on_error)
      | TimedOut :: script' =>
          let retry := checkURL url options (attempt + 1) script' in
          let on_timeout :=
            retry_or_resolve options attempt retry
              {| url := url;
                 status := 0;
                 statusText := "Timeout";
                 responseTime := timeout options;
                 size := 0;
                 result_headers := ∅;
                 redirects := [];
                 error := Some "Request timeout" |} in
          (* the 'error' that follows the timeout finds the promise
             settled when no attempt is left: its result is never used *)
          let on_error :=
            retry_or_resolve options attempt retry
              {| url := url;
                 status := 0;
                 statusText := "Error";
                 responseTime := timeout options;
                 size := 0;
                 result_headers := ∅;
                 redirects := [];
                 error := Some "socket hang up" |} in
          (Request url attempt req :: fst on_timeout ++ fst on_error,
           first_settled (snd on_timeout) (snd on_error))
      end
  end.

(** Notions for the statements about [checkURL]. *)

Definition is_failure (o : Outcome) : bool :=
  match o with
  | Failed _ _ | TimedOut => true
  | Responded _ _ _ _ | Refused _ => false
  end.

(** A request that ends in a connection error. *)
Definition is_error (o : Outcome) : bool :=
  match o with
  | Failed _ _ => true
  | _ => false
  end.

(** What the handler of a failed request puts in the result. *)
Definition failure_text (o : Outcome) : string :=
  match o with
  | Failed _ _ => "Error"
  | _ => "Timeout"
  end.

Definition failure_message (o : Outcome) : string :=
  match o with
  | Failed message _ => message
  | _ => "Request timeout"
  end.

Definition failure_time (options : Options) (o : Outcome) : Z :=
  match o with
  | Failed _ elapsed => elapsed
  | _ => timeout options
  end.

(** [n] attempts on one URL from attempt number [attempt] on, a backoff
    of [1000 * k] ms after attempt [k] when another attempt follows. *)
Fixpoint retry_trace (url : string) (req : ClientRequest) (attempt : Z) (n : nat)
    : list Event :=
  match n with
  | O => []
  | S n' =>
      Request url attempt req ::
      match n' with
      | O => []
      | S _ => Backoff (1000 * attempt) :: retry_trace url req (attempt + 1) n'
      end
  end.

(** [RedirectChain url attempt script hops time last attempt']: from
    attempt number [attempt] on [url], the outcomes of [script] are
    failed attempts that are retried and redirect responses whose
    Location resolves, on URLs that parse; [hops] are the redirects
    followed, in order, [time] is the sum of the elapsed times of the
    redirect responses, and the chain arrives at [last], about to make
    attempt number [attempt'] there. *)
Inductive RedirectChain (options : Options)
    : string -> Z -> list Outcome -> list Redirect -> Z -> string -> Z -> Prop :=
| chain_end url attempt :
    RedirectChain options url attempt [] [] 0 url attempt
| chain_retry url parsedURL attempt o script hops time last attempt' :
    URL_parse url = Some parsedURL ->
    is_failure o = true ->
    attempt < retries options ->
    RedirectChain options url (attempt + 1) script hops time last attempt' ->
    RedirectChain options url attempt (o :: script) hops time last attempt'
| chain_hop url parsedURL attempt code hdrs body elapsed location target
    script hops time last attempt' :
    URL_parse url = Some parsedURL ->
    is_redirect_status code = true ->
    hdrs !! "location" = Some location ->
    location <> "" ->
    URL_resolve location url = Some target ->
    RedirectChain options target 1 script hops time last attempt' ->
    RedirectChain options url attempt
      (Responded code hdrs body elapsed :: script)
      ({| from := url; to := target; redirect_status := code |} :: hops)
      (elapsed + time) last attempt'.

(** *** printResult, printSummary, exportResults *)

(** The lines [printResult] writes, one per [console.log]. *)
Definition printResult (result : CheckResult) (options : Options) : list string :=
  let statusColor :=
    if (200 <=? status result) && (status result <? 300) then COLORS.green
    else if (300 <=? status result) && (status result <? 400) then COLORS.yellow
    else if 400 <=? status result then COLORS.red
    else COLORS.gray in
  let timeColor :=
    if responseTime result <? 500 then COLORS.green
    else if responseTime result <? 2000 then COLORS.yellow
    else COLORS.red in
  let line :=
    statusColor +:+ "[" +:+ JS.num_to_string (status result) +:+ "]" +:+ COLORS.reset
      +:+ " " +:+ url result in
  let line :=
    line +:+ " " +:+ timeColor +:+ "(" +:+ JS.num_to_string (responseTime result)
      +:+ "ms)" +:+ COLORS.reset in
  let line :=
    if JS.str_truthy (error result) then
      line +:+ " " +:+ COLORS.red +:+ "✗ " +:+ default "" (error result) +:+ COLORS.reset
    else if 0 <? Z.of_nat (length (redirects result)) then
      line +:+ " " +:+ COLORS.yellow +:+ "→ "
        +:+ JS.num_to_string (Z.of_nat (length (redirects result)))
        +:+ " redirect(s)" +:+ COLORS.reset
    else line in
  line ::
  (if verbose options && (0 <? Z.of_nat (length (redirects result))) then
     map (fun redirect =>
            "    " +:+ COLORS.gray +:+ "→ " +:+ from redirect +:+ " → " +:+ to redirect
              +:+ " (" +:+ JS.num_to_string (redirect_status redirect) +:+ ")"
              +:+ COLORS.reset)
         (redirects result)
   else []).

(** The constants [printSummary] computes before printing them. *)
Record Summary := {
  total : Z;
  successful : Z;
  redirected : Z;
  clientErrors : Z;
  serverErrors : Z;
  failed : Z;
  avgTime : JS.Num
}.

(** [results.filter(p).length]. *)
Definition count (p : CheckResult -> bool) (results : list CheckResult) : Z :=
  Z.of_nat (length (List.filter p results)).

Definition summarize (results : list CheckResult) : Summary :=
  let total := Z.of_nat (length results) in
  {| total := total;
     successful := count (fun r => (200 <=? status r) && (status r <? 300)) results;
     redirected := count (fun r => (300 <=? status r) && (status r <? 400)) results;
     clientErrors := count (fun r => (400 <=? status r) && (status r <? 500)) results;
     serverErrors := count (fun r => 500 <=? status r) results;
     failed := count (fun r => status r =? 0) results;
     avgTime :=
       JS.round_div (fold_left (fun sum r => sum + responseTime r) results 0) total |}.

Definition Num_to_string (n : JS.Num) : string :=
  match n with
  | JS.NaN => "NaN"
  | JS.Int z => JS.num_to_string z
  end.

(** The three [console.log] calls of [printSummary]. *)
Definition printSummary (results : list CheckResult) : list string :=
  let s := summarize results in
  [ String JS.newline (COLORS.cyan +:+ "Summary:" +:+ COLORS.reset);
    "  Total: " +:+ JS.num_to_string (total s) +:+ " | "
      +:+ COLORS.green +:+ "OK: " +:+ JS.num_to_string (successful s) +:+ COLORS.reset +:+ " | "
      +:+ COLORS.yellow +:+ "Redirects: " +:+ JS.num_to_string (redirected s) +:+ COLORS.reset +:+ " | "
      +:+ COLORS.red +:+ "Client Errors: " +:+ JS.num_to_string (clientErrors s) +:+ COLORS.reset +:+ " | "
      +:+ COLORS.magenta +:+ "Server Errors: " +:+ JS.num_to_string (serverErrors s) +:+ COLORS.reset +:+ " | "
      +:+ COLORS.gray +:+ "Failed: " +:+ JS.num_to_string (failed s) +:+ COLORS.reset;
    "  Average response time: " +:+ Num_to_string (avgTime s) +:+ "ms" ].

(** [JSON.stringify(results, null, 2)], left to the runtime. *)
Variable JSON_stringify : list CheckResult -> string.
(** [fs.writeFileSync(path, content, 'utf-8')]: [Some message] when it
    throws. *)
Variable fs_writeFileSync : string -> string -> option string.

Definition csv_header : string :=
  "URL,Status,Status Text,Response Time (ms),Size (bytes),Error" +:+ String JS.newline "".

(** The template literal of the [csv] branch, for one result. *)
Definition csv_row (r : CheckResult) : string :=
  String JS.dquote (url r) +:+ String JS.dquote ","
    +:+ JS.num_to_string (status r) +:+ ","
    +:+ String JS.dquote (statusText r) +:+ String JS.dquote ","
    +:+ JS.num_to_string (responseTime r) +:+ ","
    +:+ JS.num_to_string (size r) +:+ ","
    +:+ String JS.dquote (JS.str_or (error r) "") +:+ String JS.dquote (String JS.newline "").

(** The [switch] of [exportResults]: the content, or the message of the
    error thrown. *)
Definition export_content (results : list CheckResult) (format : string) : string + string :=
  if String.eqb format "json" then inl (JSON_stringify results)
  else if String.eqb format "csv" then
    inl (fold_left (fun content r => content +:+ csv_row r) results csv_header)
  else inr ("Unknown format: " +:+ format).

Inductive ExportOutcome :=
| Saved (path content : string) (log : string)
| ExportThrew (message : string).

Definition exportResults (results : list CheckResult) (format outputPath : string) : ExportOutcome :=
  match export_content results format with
  | inr message => ExportThrew message
  | inl content =>
      match fs_writeFileSync outputPath content with
      | Some message => ExportThrew message
      | None =>
          Saved outputPath content
            (String JS.newline
               (COLORS.green +:+ "✓ Results saved to " +:+ outputPath +:+ COLORS.reset))
      end
  end.

(** *** runChecks *)

(** The promise [checkURL(url, options).then(...)] pushed on [running];
    [promise_id] is the rank of the check among those started. *)
Record PromiseObj := { promise_id : nat }.

(** Property lookup on a promise: a native promise has no property of
    its own and inherits the methods of [Promise.prototype]; its state
    is not readable as a property. *)
Definition Promise_get (p : PromiseObj) (name : string) : JS.Value :=
  if String.eqb name "then" || String.eqb name "catch"
     || String.eqb name "finally" || String.eqb name "constructor"
  then JS.Function name
  else JS.Undefined.

(** The environment of a run: what the requests of the [k]-th check
    started meet, and which checks complete, in order, while the
    [await] of the [n]-th turn of the loop is waiting. *)
Record World := {
  net : nat -> list Outcome;
  arrivals : nat -> list nat
}.

Record RunState := {
  results : list CheckResult;
  queue : list string;
  running : list PromiseObj;
  started : list Settlement;   (* how each check started will end *)
  settled : list nat;          (* the promises settled so far, oldest first *)
  console : list string
}.

(** The inner [while]: start checks up to the limit. *)
Fixpoint start_checks (w : World) (options : Options) (queue : list string)
    (running : list PromiseObj) (started : list Settlement)
    : list string * list PromiseObj * list Settlement :=
  match queue with
  | [] => (queue, running, started)
  | url :: queue' =>
      if Z.of_nat (length running) <? concurrent options then
        let k := length started in
        let promise := {| promise_id := k |} in
        start_checks w options queue' (running ++ [promise])
          (started ++ [snd (checkURL url options 1 (net w k))])
      else (queue, running, started)
  end.

(** The [for] loop that splices fulfilled promises out of [running],
    from index [i - 1] down to [0]. *)
Fixpoint remove_completed (i : nat) (running : list PromiseObj) : list PromiseObj :=
  match i with
  | O => running
  | S j =>
      match running !! j with
      | Some p =>
          if JS.truthy (Promise_get p "isFulfilled")
          then remove_completed j (delete j running)
          else remove_completed j running
      | None => remove_completed j running
      end
  end.

Inductive Wake :=
| Fulfilled            (* the race is won by a fulfilled promise *)
| RaceRejected (message : string)
| Uncaught (message : string)
| Never.               (* nothing in [running] ever settles *)

Definition is_settled (st : RunState) (p : PromiseObj) : bool :=
  bool_decide (promise_id p ∈ settled st).

(** The completion of check [k]: the callback given to [then] pushes the
    result and prints it. *)
Definition complete (options : Options) (k : nat) (st : RunState) : RunState + string :=
  if bool_decide (k ∈ settled st) then inl st
  else
    match started st !! k with
    | Some (Resolved result) =>
        inl {| results := results st ++ [result];
               queue := queue st;
               running := running st;
               started := started st;
               settled := settled st ++ [k];
               console := console st ++
                 (if quiet options then [] else printResult result options) |}
    | Some (Rejected _) =>
        inl {| results := results st;
               queue := queue st;
               running := running st;
               started := started st;
               settled := settled st ++ [k];
               console := console st |}
    | Some (Escaped message) => inr message
    | Some Pending | None => inl st
    end.

Fixpoint complete_all (options : Options) (ks : list nat) (st : RunState) : RunState + string :=
  match ks with
  | [] => inl st
  | k :: ks' =>
      match complete options k st with
      | inl st' => complete_all options ks' st'
      | inr message => inr message
      end
  end.

Definition wake_of (st : RunState) (k : nat) : Wake :=
  match started st !! k with
  | Some (Rejected message) => RaceRejected message
  | _ => Fulfilled
  end.

(** [await Promise.race(running)] in the [n]-th turn of the loop.  When a
    promise of [running] is already settled the race is won by the
    first such promise and the function resumes from the microtask
    queue, before the runtime handles any further completion. *)
Definition await_race (w : World) (options : Options) (n : nat) (st : RunState)
    : RunState * Wake :=
  match List.filter (is_settled st) (running st) with
  | p :: _ => (st, wake_of st (promise_id p))
  | [] =>
      match complete_all options (arrivals w n) st with
      | inr message => (st, Uncaught message)
      | inl st' =>
          match List.filter (fun k => bool_decide (k ∉ settled st)) (settled st') with
          | k :: _ => (st', wake_of st' k)
          | [] => (st', Never)
          end
      end
  end.

Inductive RunOutcome :=
| Returned (results : list CheckResult) (st : RunState)
| Threw (message : string) (st : RunState)
| Died (message : string) (st : RunState)
| Stuck (st : RunState)       (* waiting for a completion that never comes *)
| Spinning (st : RunState).   (* the loop is still going when the fuel ends *)

(** The outer [while], one iteration per unit of fuel; [n] counts the
    iterations done. *)
Fixpoint runChecks_loop (w : World) (options : Options) (fuel n : nat) (st : RunState)
    : RunOutcome :=
  match fuel with
  | O => Spinning st
  | S fuel' =>
      if (0 <? Z.of_nat (length (queue st))) || (0 <? Z.of_nat (length (running st))) then
        let '(queue1, running1, started1) :=
          start_checks w options (queue st) (running st) (started st) in
        let st1 := {| results := results st; queue := queue1; running := running1;
                      started := started1; settled := settled st;
                      console := console st |} in
        if 0 <? Z.of_nat (length running1) then
          match await_race w options n st1 with
          | (st2, Fulfilled) =>
              runChecks_loop w options fuel' (S n)
                {| results := results st2; queue := queue st2;
                   running := remove_completed (length (running st2)) (running st2);
                   started := started st2; settled := settled st2;
                   console := console st2 |}
          | (st2, RaceRejected message) => Threw message st2
          | (st2, Uncaught message) => Died message st2
          | (st2, Never) => Stuck st2
          end
        else runChecks_loop w options fuel' (S n) st1
      else Returned (results st) st
  end.

Definition runChecks (w : World) (fuel : nat) (urls : list string) (options : Options)
    : RunOutcome :=
  runChecks_loop w options fuel 0
    {| results := []; queue := urls; running := []; started := [];
       settled := []; console := [] |}.

(** The state a run is in when it is observed. *)
Definition state_of (r : RunOutcome) : RunState :=
  match r with
  | Returned _ st | Threw _ st | Died _ st | Stuck st | Spinning st => st
  end.

(** *** readURLsFromFile and main *)

(** [fs.existsSync] and [fs.readFileSync]: the content of a file, [None]
    when there is no such file. *)
Variable fs_readFileSync : string -> option string.

(** The URLs of a file, or the message of the error thrown. *)
Definition readURLsFromFile (filePath : string) : list string + string :=
  match fs_readFileSync filePath with
  | None => inr ("File not found: " +:+ filePath)
  | Some content =>
      inl (map (fun line =>
                  if JS.startsWith line "http://" || JS.startsWith line "https://"
                  then line
                  else "https://" +:+ line)
             (List.filter (fun line =>
                        negb (String.eqb line "") && negb (JS.startsWith line "#"))
                (map JS.trim (JS.split JS.newline content))))
  end.

(** What a run of the program leaves behind.  [exit_code] is the code
    the process ends with, [None] when the program does not come to an
    end: a loop that turns for ever is stopped from outside only, by
    the user or by the runtime, which aborts the process once the loop
    has used up the memory. *)
Record ProcessResult := {
  stdout : list string;
  stderr : list string;
  saved : option (string * string);
  exit_code : option Z
}.

(** The [catch] of [main]. *)
Definition main_catch (out : list string) (message : string) : ProcessResult := {|
  stdout := out;
  stderr := [COLORS.red +:+ "Error: " +:+ message +:+ COLORS.reset];
  saved := None;
  exit_code := Some 1
|}.

(** [main] from the return of [runChecks] on: the summary, the export
    and the exit code.  [out] is what the run has printed so far. *)
Definition main_finish (options : Options) (out : list string)
    (results : list CheckResult) : ProcessResult :=
  let out := if quiet options then out else out ++ printSummary results in
  let failed := count (fun r => (status r =? 0) || (400 <=? status r)) results in
  let code := if 0 <? failed then 1 else 0 in
  if JS.str_truthy (output options) then
    match exportResults results (format options) (default "" (output options)) with
    | ExportThrew message => main_catch out message
    | Saved path content log =>
        {| stdout := out ++ [log]; stderr := [];
           saved := Some (path, content); exit_code := Some code |}
    end
  else {| stdout := out; stderr := []; saved := None; exit_code := Some code |}.

Inductive Run :=
| Noticed (notice : ExitNotice)   (* help or version shown, exit code 0 *)
| Ran (p : ProcessResult).

(** A check of [running] that has not settled and is not left without
    any report to come. *)
Definition can_settle (st : RunState) (p : PromiseObj) : bool :=
  match started st !! promise_id p with
  | Some Pending | None => false
  | Some _ => negb (is_settled st p)
  end.

Definition main (w : World) (fuel : nat) (argv : list string) : Run :=
  match parseArgs argv with
  | Exited notice => Noticed notice
  | Parsed options =>
      let collected :=
        if JS.str_truthy (file options) then
          match readURLsFromFile (default "" (file options)) with
          | inl fileURLs => inl (urls options ++ fileURLs)
          | inr message => inr message
          end
        else inl (urls options) in
      match collected with
      | inr message => Ran (main_catch [] message)
      | inl urls =>
          if Z.of_nat (length urls) =? 0 then
            Ran {| stdout := [];
                   stderr := [COLORS.red +:+ "Error: No URLs provided" +:+ COLORS.reset;
                              "Use --help for usage information"];
                   saved := None;
                   exit_code := Some 1 |}
          else
            let out :=
              if quiet options then []
              else [COLORS.cyan +:+ "Checking " +:+ JS.num_to_string (Z.of_nat (length urls))
                      +:+ " URL(s)..." +:+ COLORS.reset +:+ String JS.newline ""] in
            match runChecks w fuel urls options with
            | Returned results st => Ran (main_finish options (out ++ console st) results)
            | Threw message st => Ran (main_catch (out ++ console st) message)
            | Died message st =>
                Ran {| stdout := out ++ console st; stderr := [message];
                       saved := None; exit_code := Some 1 |}
            | Stuck st =>
                (* [main] is suspended at the [await].  When no check
                   of [running] can settle any more the runtime has
                   nothing left to wait for, and the process ends with
                   the exit code 0 of a program that has set none. *)
                Ran {| stdout := out ++ console st; stderr := [];
                       saved := None;
                       exit_code :=
                         if existsb (can_settle st) (running st) then None
                         else Some 0 |}
            | Spinning st =>
                (* the loop of [runChecks] is still turning *)
                Ran {| stdout := out ++ console st; stderr := [];
                       saved := None; exit_code := None |}
            end
      end
  end.

(** ** Notions for the statements *)

(** No numeric option is zero. *)
Definition numeric_nonzero (o : Options) : Prop :=
  timeout o <> 0 /\ retries o <> 0 /\ maxRedirects o <> 0 /\ concurrent o <> 0.

(** A response with a 3xx status and a Location header. *)
Definition redirect_observed (script : list Outcome) : Prop :=
  exists code hdrs body elapsed location,
    In (Responded code hdrs body elapsed) script
    /\ 300 <= code < 400
    /\ hdrs !! "location" = Some location
    /\ location <> "".

(** What holds of every state of a run on [n] URLs: every check
    started is still in [running], every URL is in [queue] or has its
    check in [running], and [running] is within the limit. *)
Definition dispatch_inv (options : Options) (n : nat) (st : RunState) : Prop :=
  length (started st) = length (running st)
  /\ (length (queue st) + length (running st))%nat = n
  /\ (running st = [] \/ Z.of_nat (length (running st)) <= concurrent options).

(** The sum of the response times of a result set. *)
Definition total_time (results : list CheckResult) : Z :=
  fold_right Z.add 0 (map responseTime results).

(** Strings without a double quote, and strings that need no quoting. *)
Fixpoint no_dquote (s : string) : bool :=
  match s with
  | EmptyString => true
  | String c r => negb (Ascii.eqb c JS.dquote) && no_dquote r
  end.

Definition plain_char (c : ascii) : bool :=
  negb (Ascii.eqb c JS.dquote) && negb (Ascii.eqb c ",")
  && negb (Ascii.eqb c JS.newline).

Fixpoint plain (s : string) : bool :=
  match s with
  | EmptyString => true
  | String c r => plain_char c && plain r
  end.

(** A result whose text fields hold no double quote. *)
Definition quote_free (r : CheckResult) : bool :=
  no_dquote (url r) && no_dquote (statusText r)
  && no_dquote (JS.str_or (error r) "").

(** The rows of the export, one after the other. *)
Definition csv_rows (results : list CheckResult) : string :=
  fold_right (fun r rows => csv_row r +:+ rows) "" results.

(** A string that starts with [http://] or [https://]. *)
Definition has_http_scheme (u : string) : bool :=
  JS.startsWith u "http://" || JS.startsWith u "https://".

(** The time spent waiting between attempts. *)
Definition backoff_total (events : list Event) : Z :=
  fold_right (fun e total => match e with
                           | Backoff ms => ms + total
                           | Request _ _ _ => total
                           end) 0 events.

(** The header table every request starts from. *)
Definition default_headers : gmap string string :=
  <["User-Agent" := "httpcheck/1.0.0"]>
    (<["Accept" := "*/*"]> (<["Connection" := "close"]> ∅)).

(** The statuses no bucket of the summary counts: the negative ones and
    those from 1 to 199. *)
Definition uncounted (r : CheckResult) : bool :=
  (status r <? 0) || ((0 <? status r) && (status r <? 200)).

(** The results [main] counts as failures for the exit code. *)
Definition counts_as_failure (r : CheckResult) : bool :=
  (status r =? 0) || (400 <=? status r).

(** The state [runChecks] starts in. *)
Definition initial_state (urls : list string) : RunState :=
  {| results := []; queue := urls; running := []; started := [];
     settled := []; console := [] |}.

(** The result of the [k]-th check started, when it resolves. *)
Definition resolved_result (started : list Settlement) (k : nat) : option CheckResult :=
  match started !! k with
  | Some (Resolved r) => Some r
  | _ => None
  end.

(** What holds of the results collected in a run on [urls]: they are
    the results of the checks settled so far, in the order the checks
    settled; no check settles twice; only checks that were started
    settle; and every check is that of a URL of the list. *)
Definition results_inv (urls : list string) (st : RunState) : Prop :=
  results st = omap (resolved_result (started st)) (settled st)
  /\ NoDup (settled st)
  /\ Forall (fun k => (k < length (started st))%nat) (settled st)
  /\ Forall (fun u => u ∈ urls) (queue st)
  /\ Forall (fun x => forall r, x = Resolved r -> url r ∈ urls) (started st).

(** The number of requests [checkURL] makes on a URL whose attempts
    fail as [script] says and whose next attempt is the last: an
    attempt that times out is retried twice. *)
Fixpoint requests_made (script : list Outcome) : nat :=
  match script with
  | [] => 1
  | o :: script' => S ((if is_error o then 1 else 2) * requests_made script')
  end.

(** ** Inputs of the examples *)

(** An export that needs no JSON and a file system that accepts every
    write. *)
Definition no_json (results : list CheckResult) : string := "[]".
Definition write_ok (path content : string) : option string := None.

(** The URLs requested, in order. *)
Definition requested (events : list Event) : list string :=
  omap (fun e => match e with
               | Request target _ _ => Some target
               | Backoff _ => None
               end) events.

(** Ten URLs under a limit of three, every server answering 200 and
    every check in flight completing as soon as the run waits. *)
Definition ten_urls : list string :=
  map (fun k => "http://a.example/" +:+ pretty (Z.of_nat k)) (seq 0 10).
Definition limit_three : Options := set_concurrent 3 default_options.
Definition prompt_world : World :=
  {| net := fun _ => [Responded 200 ∅ "ok" 12];
     arrivals := fun _ => seq 0 10 |}.

(** A chain of two redirects under a ceiling of one. *)
Definition ceiling_one : Options := set_maxRedirects 1 default_options.
Definition two_redirects : list Outcome :=
  [ Responded 302 {[ "location" := "http://b.example/" ]} "" 5;
    Responded 302 {[ "location" := "http://c.example/" ]} "" 7;
    Responded 200 ∅ "hello" 11 ].

(** Three attempts that all fail. *)
Definition three_attempts : Options := set_retries 3 default_options.

(** The result set of statuses 200, 200, 404 and 0. *)
Definition result_of (code time : Z) (err : option string) : CheckResult :=
  {| url := "http://a.example/"; status := code;
     statusText := default "Unknown" (STATUS_CODES code);
     responseTime := time; size := 0; result_headers := ∅;
     redirects := []; error := err |}.
Definition mixed_results : list CheckResult :=
  [ result_of 200 10 None; result_of 200 20 None; result_of 404 30 None;
    {| url := "http://d.example/"; status := 0; statusText := "Error";
       responseTime := 41; size := 0; result_headers := ∅; redirects := [];
       error := Some "connect ECONNREFUSED" |} ].

(** Failed results whose error holds a comma, a double quote, and a
    double quote next to a comma. *)
Definition failed_with (message : string) : CheckResult :=
  {| url := "http://d.example/"; status := 0; statusText := "Error";
     responseTime := 41; size := 0; result_headers := ∅; redirects := [];
     error := Some message |}.
Definition comma_error : CheckResult := failed_with "refused, twice".
Definition quote_error : CheckResult :=
  failed_with ("no " +:+ String JS.dquote ("host" +:+ String JS.dquote " found")).
Definition quote_comma_error : CheckResult :=
  failed_with ("a" +:+ String JS.dquote ("," +:+ String JS.dquote "b")).

(** One URL and an output file, the format left to its default; the
    state the run is in once the check has completed. *)
Definition export_argv : list string :=
  ["http://a.example/"; "--output"; "results.txt"].
Definition export_options : Options :=
  set_output (Some "results.txt") (set_urls ["http://a.example/"] default_options).
Definition answered : CheckResult :=
  {| url := "http://a.example/"; status := 200; statusText := "OK";
     responseTime := 12; size := 2; result_headers := ∅; redirects := [];
     error := None |}.
Definition spinning_state : RunState :=
  {| results := [answered]; queue := []; running := [{| promise_id := 0 |}];
     started := [Resolved answered]; settled := [0%nat];
     console := printResult answered export_options |}.

(** A file system with one file of URLs, and one with a file of
    comments. *)
Definition one_file (name content : string) (path : string) : option string :=
  if String.eqb path name then Some content else None.
Definition urls_txt : string :=
  "# sites" +:+ String JS.newline
    ("  a.example/x " +:+ String JS.newline
       (String JS.newline ("http://b.example/" +:+ String JS.newline ""))).
Definition comments_txt : string :=
  "# nothing yet" +:+ String JS.newline ("   " +:+ String JS.newline "").

(** The parsed forms of the URLs of the examples. *)
Definition a_example : ParsedURL :=
  {| protocol := "http:"; hostname := "a.example"; port := "";
     pathname := "/"; search := "" |}.
Definition b_example : ParsedURL :=
  {| protocol := "http:"; hostname := "b.example"; port := "";
     pathname := "/"; search := "" |}.


(** The message with which the http client refuses a timeout of -5. *)
Definition timeout_refusal : string :=
  "The value of " +:+ String JS.dquote ("timeout" +:+ String JS.dquote
    " is out of range. It must be a non-negative finite number. Received -5").

(** A world in which the check started second settles first. *)
Definition second_first : World :=
  {| net := fun _ => [Responded 200 ∅ "ok" 12];
     arrivals := fun _ => [1%nat] |}.

(** ** Properties of parseArgs *)

Lemma num_or_default (n : JS.Num) (d : Z) :
  n = JS.NaN \/ n = JS.Int 0 -> JS.num_or n d = d.
Proof. intros [-> | ->]; reflexivity. Qed.

Lemma num_or_nonzero (n : JS.Num) (d : Z) : d <> 0 -> JS.num_or n d <> 0.
Proof.
  intros Hd. destruct n as [|z]; simpl; [exact Hd|].
  destruct (Z.eqb_spec z 0); assumption.
Qed.

Lemma add_header_nonzero header o :
  numeric_nonzero o -> numeric_nonzero (add_header header o).
Proof.
  intros Ho. unfold add_header.
  repeat match goal with
         | |- context [match ?x with _ => _ end] => destruct x
         end; exact Ho.
Qed.

Lemma parseArgs_step_nonzero o arg next o' consumed :
  numeric_nonzero o ->
  parseArgs_step o arg next = StepNext o' consumed ->
  numeric_nonzero o'.
Proof.
  intros Ho. pose proof Ho as (Ht & Hr & Hm & Hc). unfold parseArgs_step.
  repeat match goal with
         | |- context [if ?c then _ else _] => destruct c
         end;
    intros Heq; inversion Heq; subst; clear Heq;
    try (apply add_header_nonzero; exact Ho);
    unfold numeric_nonzero; simpl;
    repeat split; try assumption; apply num_or_nonzero; lia.
Qed.

Lemma parseArgs_loop_nonzero (n : nat) : forall args o o',
  (length args <= n)%nat ->
  numeric_nonzero o ->
  parseArgs_loop o args = Parsed o' ->
  numeric_nonzero o'.
Proof.
  induction n as [|n IH]; intros args o o' Hlen Ho Hrun.
  - destruct args; [|simpl in Hlen; lia]. simpl in Hrun. congruence.
  - destruct args as [|arg rest]; simpl in Hrun; [congruence|].
    destruct (parseArgs_step o arg (head rest)) as [notice|o1 consumed] eqn:Hstep;
      [discriminate|].
    pose proof (parseArgs_step_nonzero _ _ _ _ _ Ho Hstep) as Ho1.
    simpl in Hlen.
    destruct consumed.
    + destruct rest as [|v rest']; [congruence|].
      apply (IH rest' o1); [simpl in Hlen; lia|assumption|assumption].
    + apply (IH rest o1); [lia|assumption|assumption].
Qed.

(** C9. A numeric flag whose value [parseInt] reads as 0 or as NaN is
    given its default: 10000 for [--timeout], 1 for [--retries], 10 for
    [--max-redirects], 5 for [--concurrent]; and whatever the argument
    list, the options [parseArgs] returns have no zero timeout, retry
    count, redirect ceiling or concurrency limit. *)
Theorem parseArgs_zero_or_non_numeric_is_default :
  (forall o v rest,
      JS.parseInt v = JS.NaN \/ JS.parseInt v = JS.Int 0 ->
      (forall flag, flag = "--timeout" \/ flag = "-t" ->
         parseArgs_loop o (flag :: v :: rest) = parseArgs_loop (set_timeout 10000 o) rest)
      /\ (forall flag, flag = "--retries" \/ flag = "-r" ->
         parseArgs_loop o (flag :: v :: rest) = parseArgs_loop (set_retries 1 o) rest)
      /\ parseArgs_loop o ("--max-redirects" :: v :: rest)
         = parseArgs_loop (set_maxRedirects 10 o) rest
      /\ (forall flag, flag = "--concurrent" \/ flag = "-c" ->
         parseArgs_loop o (flag :: v :: rest) = parseArgs_loop (set_concurrent 5 o) rest))
  /\ (forall argv o,
      parseArgs argv = Parsed o ->
      timeout o <> 0 /\ retries o <> 0 /\ maxRedirects o <> 0 /\ concurrent o <> 0).
Proof.
  split.
  - intros o v rest Hv.
    repeat split; try (intros flag [-> | ->]);
      cbn [parseArgs_loop parseArgs_step String.eqb Ascii.eqb Bool.eqb orb head
           JS.parseInt_arg];
      rewrite (num_or_default _ _ Hv); reflexivity.
  - intros argv o Hrun.
    apply (parseArgs_loop_nonzero (length argv) argv default_options o);
      [lia| |exact Hrun].
    unfold numeric_nonzero; simpl; lia.
Qed.

(** ** Properties of checkURL *)

Lemma redirectCount_is_one (res : IncomingMessage) : redirectCount_of res = 1.
Proof. reflexivity. Qed.

Lemma checkURL_unparsed url options attempt script :
  URL_parse url = None ->
  checkURL url options attempt script = ([], Rejected "Invalid URL").
Proof. intros H. destruct script; cbn [checkURL]; rewrite H; reflexivity. Qed.

Lemma checkURL_pending url parsedURL options attempt :
  URL_parse url = Some parsedURL ->
  checkURL url options attempt [] =
    ([Request url attempt (request_of parsedURL options)], Pending).
Proof. intros H. cbn [checkURL]. rewrite H. reflexivity. Qed.

Lemma first_settled_same (p : Settlement) : first_settled p p = p.
Proof. destruct p; reflexivity. Qed.

Lemma then_not_rejected (p : Settlement) (f : CheckResult -> CheckResult) message :
  then_ p f <> Rejected message.
Proof. destruct p; discriminate. Qed.

(** How a failed request settles: both handlers agree on it. *)
Lemma checkURL_failure_settles url parsedURL options attempt o script :
  URL_parse url = Some parsedURL ->
  is_failure o = true ->
  snd (checkURL url options attempt (o :: script)) =
    if attempt <? retries options
    then then_ (snd (checkURL url options (attempt + 1) script)) (fun r => r)
    else Resolved {| url := url; status := 0; statusText := failure_text o;
                     responseTime := failure_time options o; size := 0;
                     result_headers := ∅; redirects := [];
                     error := Some (failure_message o) |}.
Proof.
  intros H Hfail. cbn [checkURL]. rewrite H.
  destruct o as [code hdrs body elapsed|message elapsed| |message];
    try discriminate; unfold retry_or_resolve;
    destruct (attempt <? retries options); cbn [fst snd first_settled];
    try reflexivity.
  apply first_settled_same.
Qed.

Lemma checkURL_retry url parsedURL options attempt o script :
  URL_parse url = Some parsedURL ->
  is_failure o = true ->
  attempt < retries options ->
  snd (checkURL url options attempt (o :: script)) =
    then_ (snd (checkURL url options (attempt + 1) script)) (fun r => r).
Proof.
  intros H Hfail Hlt. rewrite (checkURL_failure_settles _ _ _ _ _ _ H Hfail).
  apply Z.ltb_lt in Hlt. rewrite Hlt. reflexivity.
Qed.

(** A connection error below the last attempt: one timer, one retry. *)
Lemma checkURL_error_retry url parsedURL options attempt message elapsed script :
  URL_parse url = Some parsedURL ->
  attempt < retries options ->
  fst (checkURL url options attempt (Failed message elapsed :: script)) =
    Request url attempt (request_of parsedURL options)
      :: Backoff (1000 * attempt) :: fst (checkURL url options (attempt + 1) script).
Proof.
  intros H Hlt. cbn [checkURL]. rewrite H. unfold retry_or_resolve.
  apply Z.ltb_lt in Hlt. rewrite Hlt. reflexivity.
Qed.

(** A timeout below the last attempt: two timers, two retries. *)
Lemma checkURL_timeout_retry url parsedURL options attempt script :
  URL_parse url = Some parsedURL ->
  attempt < retries options ->
  fst (checkURL url options attempt (TimedOut :: script)) =
    Request url attempt (request_of parsedURL options)
      :: (Backoff (1000 * attempt) :: fst (checkURL url options (attempt + 1) script))
         ++ (Backoff (1000 * attempt) :: fst (checkURL url options (attempt + 1) script)).
Proof.
  intros H Hlt. cbn [checkURL]. rewrite H. unfold retry_or_resolve.
  apply Z.ltb_lt in Hlt. rewrite Hlt. reflexivity.
Qed.

Lemma checkURL_exhausted url parsedURL options attempt o script :
  URL_parse url = Some parsedURL ->
  is_failure o = true ->
  retries options <= attempt ->
  checkURL url options attempt (o :: script) =
    ([Request url attempt (request_of parsedURL options)],
     Resolved {| url := url; status := 0; statusText := failure_text o;
                 responseTime := failure_time options o; size := 0;
                 result_headers := ∅; redirects := [];
                 error := Some (failure_message o) |}).
Proof.
  intros H Hfail Hge. cbn [checkURL]. rewrite H. unfold retry_or_resolve.
  apply Z.ltb_ge in Hge.
  destruct o; try discriminate; rewrite Hge; reflexivity.
Qed.

Lemma checkURL_plain url parsedURL options attempt code hdrs body elapsed script :
  URL_parse url = Some parsedURL ->
  followRedirects options && is_redirect_status code
    && JS.str_truthy (hdrs !! "location") = false
  \/ maxRedirects options < 1 ->
  checkURL url options attempt (Responded code hdrs body elapsed :: script) =
    ([Request url attempt (request_of parsedURL options)],
     Resolved {| url := url; status := code;
                 statusText := default "Unknown" (STATUS_CODES code);
                 responseTime := elapsed;
                 size := Z.of_nat (String.length body);
                 result_headers := hdrs; redirects := []; error := None |}).
Proof.
  intros H Hcond. cbn [checkURL]. rewrite H.
  cbn [statusCode res_headers]. rewrite redirectCount_is_one.
  destruct Hcond as [-> | Hmax]; [reflexivity|].
  apply Z.leb_gt in Hmax. rewrite Hmax.
  destruct (followRedirects options && is_redirect_status code
            && JS.str_truthy (hdrs !! "location")); reflexivity.
Qed.

Lemma checkURL_hop url parsedURL options attempt code hdrs body elapsed script
    location target :
  URL_parse url = Some parsedURL ->
  followRedirects options = true ->
  1 <= maxRedirects options ->
  is_redirect_status code = true ->
  hdrs !! "location" = Some location ->
  location <> "" ->
  URL_resolve location url = Some target ->
  checkURL url options attempt (Responded code hdrs body elapsed :: script) =
    (Request url attempt (request_of parsedURL options)
       :: fst (checkURL target options 1 script),
     then_ (snd (checkURL target options 1 script))
       (fun redirectResult =>
          {| url := url;
             status := status redirectResult;
             statusText := statusText redirectResult;
             responseTime := elapsed + responseTime redirectResult;
             size := size redirectResult;
             result_headers := result_headers redirectResult;
             redirects :=
               {| from := url; to := target; redirect_status := code |}
                 :: redirects redirectResult;
             error := None |})).
Proof.
  intros H Hfollow Hmax Hcode Hloc Hne Hres. cbn [checkURL]. rewrite H.
  cbn [statusCode res_headers responseTime redirects error].
  rewrite redirectCount_is_one, Hfollow, Hcode, Hloc.
  apply Z.leb_le in Hmax. rewrite Hmax.
  destruct location as [|c location']; [congruence|].
  cbn [JS.str_truthy andb from_option id]. rewrite Hres.
  destruct (checkURL target options 1 script). reflexivity.
Qed.

Lemma checkURL_result_url : forall script u options attempt r,
  snd (checkURL u options attempt script) = Resolved r -> url r = u.
Proof.
  induction script as [|o script IH]; intros u options attempt r.
  - cbn [checkURL]. destruct (URL_parse u); discriminate.
  - destruct (URL_parse u) as [parsedURL|] eqn:Hparse;
      [|rewrite checkURL_unparsed by exact Hparse; discriminate].
    destruct o as [code hdrs body elapsed|message elapsed| |message].
    + cbn [checkURL]. rewrite Hparse.
      destruct (followRedirects options && _ && _); [|intros [= <-]; reflexivity].
      destruct (_ <=? _); [|intros [= <-]; reflexivity].
      destruct (URL_resolve _ u) as [target|]; [|discriminate].
      destruct (checkURL target options 1 script) as [events [rr|m|m|]];
        cbn [snd then_]; try discriminate.
      intros [= <-]. reflexivity.
    + rewrite (checkURL_failure_settles _ _ _ _ _ _ Hparse) by reflexivity.
      destruct (attempt <? retries options); [|intros [= <-]; reflexivity].
      specialize (IH u options (attempt + 1)).
      destruct (snd (checkURL u options (attempt + 1) script)) as [rr|m|m|];
        cbn [then_] in *; try discriminate.
      intros [= <-]. apply IH. reflexivity.
    + rewrite (checkURL_failure_settles _ _ _ _ _ _ Hparse) by reflexivity.
      destruct (attempt <? retries options); [|intros [= <-]; reflexivity].
      specialize (IH u options (attempt + 1)).
      destruct (snd (checkURL u options (attempt + 1) script)) as [rr|m|m|];
        cbn [then_] in *; try discriminate.
      intros [= <-]. apply IH. reflexivity.
    + cbn [checkURL]. rewrite Hparse. discriminate.
Qed.

(** What a followed chain does to the result of the check it arrives
    at. *)
Lemma checkURL_chain_merges
    options initial attempt script hops time last attempt' rest final :
  followRedirects options = true ->
  1 <= maxRedirects options ->
  RedirectChain options initial attempt script hops time last attempt' ->
  snd (checkURL last options attempt' rest) = Resolved final ->
  snd (checkURL initial options attempt (script ++ rest))
  = Resolved {| url := initial;
                status := status final;
                statusText := statusText final;
                responseTime := time + responseTime final;
                size := size final;
                result_headers := result_headers final;
                redirects := hops ++ redirects final;
                error := match hops with [] => error final | _ :: _ => None end |}.
Proof.
  intros Hfollow Hmax Hchain Hfinal.
  induction Hchain as
    [u a
    |u parsedURL a o script hops time last a' Hparse Hfail Hlt Hchain IH
    |u parsedURL a code hdrs body elapsed location target script hops time last a'
       Hparse Hcode Hloc Hne Hres Hchain IH].
  - cbn [app]. rewrite Hfinal.
    rewrite <- (checkURL_result_url _ _ _ _ _ Hfinal).
    destruct final; reflexivity.
  - change ((o :: script) ++ rest) with (o :: (script ++ rest)).
    rewrite (checkURL_retry _ _ _ _ _ _ Hparse Hfail Hlt).
    rewrite (IH Hfinal). reflexivity.
  - change ((Responded code hdrs body elapsed :: script) ++ rest)
      with (Responded code hdrs body elapsed :: (script ++ rest)).
    rewrite (checkURL_hop _ _ _ _ _ _ _ _ _ _ _
               Hparse Hfollow Hmax Hcode Hloc Hne Hres).
    cbn [snd]. rewrite (IH Hfinal). cbn [then_].
    cbn [url status statusText size result_headers responseTime redirects].
    rewrite Z.add_assoc. reflexivity.
Qed.

(** C5. When [checkURL] follows a chain of redirects, the result keeps
    the initial URL and lists the redirects followed, in the order they
    were followed.  When the chain ends in a response that is not
    followed, the status, the status text, the size and the headers of
    the result are those of that response, and the response time is the
    sum of the elapsed times of the redirect responses and of that
    response.  When it ends in a failure with no attempt left, the
    status is 0, the status text that of the failure, the size 0, the
    headers empty, and the time of the failure is added in the same
    way; the message of the failure is in the result only when no
    redirect was followed. *)
Theorem checkURL_redirect_chain
    options initial attempt script hops time last attempt' parsedURL rest :
  followRedirects options = true ->
  1 <= maxRedirects options ->
  RedirectChain options initial attempt script hops time last attempt' ->
  URL_parse last = Some parsedURL ->
  (forall code hdrs body elapsed,
      is_redirect_status code && JS.str_truthy (hdrs !! "location") = false ->
      snd (checkURL initial options attempt
             (script ++ Responded code hdrs body elapsed :: rest))
      = Resolved {| url := initial;
                    status := code;
                    statusText := default "Unknown" (STATUS_CODES code);
                    responseTime := time + elapsed;
                    size := Z.of_nat (String.length body);
                    result_headers := hdrs;
                    redirects := hops;
                    error := None |})
  /\ (forall o,
      is_failure o = true ->
      retries options <= attempt' ->
      snd (checkURL initial options attempt (script ++ o :: rest))
      = Resolved {| url := initial;
                    status := 0;
                    statusText := failure_text o;
                    responseTime := time + failure_time options o;
                    size := 0;
                    result_headers := ∅;
                    redirects := hops;
                    error := match hops with
                             | [] => Some (failure_message o)
                             | _ :: _ => None
                             end |}).
Proof.
  intros Hfollow Hmax Hchain Hlast. split.
  - intros code hdrs body elapsed Hplain.
    rewrite (checkURL_chain_merges _ _ _ _ _ _ _ _ _ _ Hfollow Hmax Hchain
               (f_equal snd (checkURL_plain last _ options attempt' code hdrs body
                               elapsed rest Hlast
                               (or_introl
                                  (eq_trans (f_equal (fun b => b && _ && _) Hfollow)
                                     Hplain))))).
    cbn [status statusText responseTime size result_headers redirects error].
    rewrite app_nil_r. destruct hops; reflexivity.
  - intros o Hfail Hge.
    rewrite (checkURL_chain_merges _ _ _ _ _ _ _ _ _ _ Hfollow Hmax Hchain
               (f_equal snd (checkURL_exhausted last _ options attempt' o rest
                               Hlast Hfail Hge))).
    cbn [status statusText responseTime size result_headers redirects error].
    rewrite app_nil_r. reflexivity.
Qed.

Lemma requested_cons target attempt req events :
  requested (Request target attempt req :: events) = target :: requested events.
Proof. reflexivity. Qed.

Lemma requested_backoff ms events :
  requested (Backoff ms :: events) = requested events.
Proof. reflexivity. Qed.

Lemma requested_app (l1 l2 : list Event) :
  requested (l1 ++ l2) = requested l1 ++ requested l2.
Proof. apply omap_app. Qed.

(** The requests of a URL whose attempts fail as [script] says until
    the last attempt fails as well, and the result. *)
Lemma checkURL_failures_trace url parsedURL options last :
  URL_parse url = Some parsedURL ->
  is_failure last = true ->
  forall script attempt,
    Forall (fun o => is_failure o = true) script ->
    attempt + Z.of_nat (length script) = retries options ->
    requested (fst (checkURL url options attempt (script ++ [last])))
    = repeat url (requests_made script)
    /\ snd (checkURL url options attempt (script ++ [last]))
       = Resolved {| url := url; status := 0; statusText := failure_text last;
                     responseTime := failure_time options last; size := 0;
                     result_headers := ∅; redirects := [];
                     error := Some (failure_message last) |}.
Proof.
  intros Hparse Hlast.
  induction script as [|o script IH]; intros attempt Hall Hlen.
  - cbn [app]. rewrite (checkURL_exhausted _ _ _ _ _ _ Hparse Hlast)
      by (simpl in Hlen; lia).
    split; reflexivity.
  - inversion Hall as [|? ? Ho Hall']; subst.
    cbn [length] in Hlen.
    destruct (IH (attempt + 1) Hall') as [Hreq Hres]; [lia|].
    change ((o :: script) ++ [last]) with (o :: (script ++ [last])).
    split.
    + destruct o as [code hdrs body elapsed|message elapsed| |message];
        try discriminate.
      * rewrite (checkURL_error_retry _ _ _ _ _ _ _ Hparse) by lia.
        rewrite requested_cons, requested_backoff, Hreq.
        cbn [requests_made is_error]. rewrite Nat.mul_1_l. reflexivity.
      * rewrite (checkURL_timeout_retry _ _ _ _ _ Hparse) by lia.
        rewrite requested_cons, requested_app, !requested_backoff, Hreq.
        cbn [requests_made is_error].
        rewrite <- repeat_app. cbn [repeat]. f_equal. f_equal. lia.
    + rewrite (checkURL_retry _ _ _ _ _ _ Hparse Ho) by lia.
      rewrite Hres. reflexivity.
Qed.

Lemma checkURL_errors_trace url parsedURL options last :
  URL_parse url = Some parsedURL ->
  is_failure last = true ->
  forall script attempt,
    Forall (fun o => is_error o = true) script ->
    attempt + Z.of_nat (length script) = retries options ->
    fst (checkURL url options attempt (script ++ [last]))
    = retry_trace url (request_of parsedURL options) attempt (S (length script)).
Proof.
  intros Hparse Hlast.
  induction script as [|o script IH]; intros attempt Hall Hlen.
  - cbn [app length retry_trace].
    rewrite (checkURL_exhausted _ _ _ _ _ _ Hparse Hlast) by (simpl in Hlen; lia).
    reflexivity.
  - inversion Hall as [|? ? Ho Hall']; subst.
    cbn [length] in Hlen.
    change ((o :: script) ++ [last]) with (o :: (script ++ [last])).
    destruct o as [code hdrs body elapsed|message elapsed| |message];
      try discriminate.
    rewrite (checkURL_error_retry _ _ _ _ _ _ _ Hparse) by lia.
    rewrite (IH (attempt + 1) Hall') by lia.
    reflexivity.
Qed.

Lemma requests_made_at_least (script : list Outcome) :
  (S (length script) <= requests_made script)%nat.
Proof.
  induction script as [|o script IH]; cbn [length requests_made]; [lia|].
  destruct (is_error o); lia.
Qed.

Lemma requests_made_timeout (script : list Outcome) :
  Exists (fun o => o = TimedOut) script ->
  (S (length script) < requests_made script)%nat.
Proof.
  induction 1 as [o script ->|o script _ IH]; cbn [length requests_made is_error].
  - pose proof (requests_made_at_least script). lia.
  - destruct (is_error o); lia.
Qed.

Lemma requests_made_all_timeouts (script : list Outcome) :
  Forall (fun o => o = TimedOut) script ->
  requests_made script = (2 ^ S (length script) - 1)%nat.
Proof.
  induction 1 as [|o script -> _ IH]; [reflexivity|].
  cbn [length requests_made is_error]. rewrite IH.
  change (2 ^ S (S (length script)))%nat with (2 * 2 ^ S (length script))%nat.
  assert (1 <= 2 ^ S (length script))%nat
    by (apply Nat.neq_0_lt_0, Nat.pow_nonzero; discriminate).
  lia.
Qed.

Lemma backoff_total_app (l1 l2 : list Event) :
  backoff_total (l1 ++ l2) = backoff_total l1 + backoff_total l2.
Proof.
  induction l1 as [|e l1 IH]; [reflexivity|].
  change ((e :: l1) ++ l2) with (e :: (l1 ++ l2)).
  destruct e; cbn [backoff_total fold_right];
    fold (backoff_total (l1 ++ l2)); fold (backoff_total l1); lia.
Qed.

Lemma checkURL_timeouts_backoff url parsedURL options last :
  URL_parse url = Some parsedURL ->
  is_failure last = true ->
  forall script attempt,
    Forall (fun o => o = TimedOut) script ->
    attempt + Z.of_nat (length script) = retries options ->
    backoff_total (fst (checkURL url options attempt (script ++ [last])))
    = 1000 * ((attempt + Z.of_nat (length script) - 2) * 2 ^ Z.of_nat (S (length script))
              - 2 * attempt + 4).
Proof.
  intros Hparse Hlast.
  induction script as [|o script IH]; intros attempt Hall Hlen.
  - cbn [app]. rewrite (checkURL_exhausted _ _ _ _ _ _ Hparse Hlast)
      by (simpl in Hlen; lia).
    cbn [fst backoff_total fold_right length]. change (2 ^ Z.of_nat 1) with 2. lia.
  - inversion Hall as [|? ? -> Hall']; subst.
    cbn [length] in Hlen.
    change ((TimedOut :: script) ++ [last]) with (TimedOut :: (script ++ [last])).
    rewrite (checkURL_timeout_retry _ _ _ _ _ Hparse) by lia.
    cbn [backoff_total fold_right].
    fold (backoff_total
            ((Backoff (1000 * attempt)
                :: fst (checkURL url options (attempt + 1) (script ++ [last])))
             ++ Backoff (1000 * attempt)
                :: fst (checkURL url options (attempt + 1) (script ++ [last])))).
    rewrite backoff_total_app. cbn [backoff_total fold_right].
    fold (backoff_total (fst (checkURL url options (attempt + 1) (script ++ [last])))).
    rewrite (IH (attempt + 1) Hall') by lia.
    cbn [length].
    replace (Z.of_nat (S (S (length script)))) with (Z.succ (Z.of_nat (S (length script))))
      by lia.
    rewrite Z.pow_succ_r by lia.
    set (P := 2 ^ Z.of_nat (S (length script))).
    replace (Z.of_nat (S (length script))) with (Z.of_nat (length script) + 1) by lia.
    lia.
Qed.

(** C4, as the program behaves.  With [retries = n >= 1] and requests
    that all fail, [checkURL] resolves as the claim says: status 0, the
    message of the last failure as error, and as response time the
    elapsed time of the last attempt when it ended in an error, the
    configured timeout when it timed out.  It makes exactly [n]
    attempts, a wait of [1000 * k] ms after the failed attempt [k], when
    the attempts before the last end in connection errors.  An attempt
    before the last that times out is retried twice, once by each
    handler: the URL is then requested more than [n] times, and when all
    the attempts time out it is requested [2 ^ n - 1] times, behind
    timers that add up to [1000 * ((n - 2) * 2 ^ n + 2)] ms. *)
Theorem checkURL_timeout_doubles_retries url parsedURL options script last :
  URL_parse url = Some parsedURL ->
  Forall (fun o => is_failure o = true) (script ++ [last]) ->
  Z.of_nat (length (script ++ [last])) = retries options ->
  let run := checkURL url options 1 (script ++ [last]) in
  let n := Z.to_nat (retries options) in
  snd run
  = Resolved {| url := url; status := 0; statusText := failure_text last;
                responseTime := failure_time options last; size := 0;
                result_headers := ∅; redirects := [];
                error := Some (failure_message last) |}
  /\ (Forall (fun o => is_error o = true) script ->
      fst run = retry_trace url (request_of parsedURL options) 1 n)
  /\ (Exists (fun o => o = TimedOut) script ->
      (n < length (requested (fst run)))%nat)
  /\ (Forall (fun o => o = TimedOut) script ->
      requested (fst run) = repeat url (2 ^ n - 1)
      /\ backoff_total (fst run)
         = 1000 * ((retries options - 2) * 2 ^ retries options + 2)).
Proof.
  intros Hparse Hall Hlen.
  apply Forall_app in Hall as [Hall Hlast].
  inversion Hlast as [|? ? Hl _]; subst.
  rewrite length_app in Hlen. cbn [length] in Hlen.
  cbn zeta.
  replace (Z.to_nat (retries options)) with (S (length script)) by lia.
  destruct (checkURL_failures_trace url parsedURL options last Hparse Hl script 1 Hall)
    as [Hreq Hres];
    [lia|].
  split; [exact Hres|]. split; [|split].
  - intros Herr. apply (checkURL_errors_trace url parsedURL options last Hparse Hl); [exact Herr|lia].
  - intros Hex. rewrite Hreq, repeat_length. apply requests_made_timeout. exact Hex.
  - intros Hto. split.
    + rewrite Hreq, (requests_made_all_timeouts _ Hto). reflexivity.
    + rewrite (checkURL_timeouts_backoff url parsedURL options last Hparse Hl script 1 Hto)
        by lia.
      replace (retries options) with (Z.of_nat (S (length script))) by lia.
      f_equal. lia.
Qed.

Lemma checkURL_rejected_iff : forall script url options attempt message,
  snd (checkURL url options attempt script) = Rejected message
  <-> (URL_parse url = None /\ message = "Invalid URL")
      \/ (URL_parse url <> None /\ exists rest, script = Refused message :: rest).
Proof.
  intros script u options attempt message.
  destruct (URL_parse u) as [parsedURL|] eqn:Hparse.
  - split.
    + intros Hrej. right. split; [discriminate|].
      destruct script as [|o script]; [cbn [checkURL] in Hrej; rewrite Hparse in Hrej;
                                        discriminate|].
      destruct o as [code hdrs body elapsed|m elapsed| |m].
      * exfalso. revert Hrej. cbn [checkURL]. rewrite Hparse.
        destruct (followRedirects options && _ && _); [|discriminate].
        destruct (_ <=? _); [|discriminate].
        destruct (URL_resolve _ u) as [target|]; [|discriminate].
        destruct (checkURL target options 1 script) as [events settled].
        cbn [snd]. apply then_not_rejected.
      * exfalso. revert Hrej.
        rewrite (checkURL_failure_settles _ _ _ _ _ _ Hparse) by reflexivity.
        destruct (attempt <? retries options); [apply then_not_rejected|discriminate].
      * exfalso. revert Hrej.
        rewrite (checkURL_failure_settles _ _ _ _ _ _ Hparse) by reflexivity.
        destruct (attempt <? retries options); [apply then_not_rejected|discriminate].
      * cbn [checkURL] in Hrej. rewrite Hparse in Hrej. injection Hrej as ->.
        exists script. reflexivity.
    + intros [[Hnone _]|[_ (rest & ->)]]; [discriminate|].
      cbn [checkURL]. rewrite Hparse. reflexivity.
  - rewrite (checkURL_unparsed _ _ _ _ Hparse). cbn [snd]. split.
    + intros [= <-]. left. split; reflexivity.
    + intros [[_ ->]|[Hsome _]]; [reflexivity|congruence].
Qed.

Lemma checkURL_accepted_settles url parsedURL options attempt o script message :
  URL_parse url = Some parsedURL ->
  (forall m, o <> Refused m) ->
  snd (checkURL url options attempt (o :: script)) <> Rejected message.
Proof.
  intros Hparse Ho Hrej.
  apply checkURL_rejected_iff in Hrej as [[Hnone _]|[_ (rest & [= -> _])]];
    [congruence|].
  exact (Ho message eq_refl).
Qed.

Lemma checkURL_failures_resolve url parsedURL options :
  URL_parse url = Some parsedURL ->
  forall script attempt,
    Forall (fun o => is_failure o = true) script ->
    script <> [] ->
    retries options - attempt < Z.of_nat (length script) ->
    exists r,
      snd (checkURL url options attempt script) = Resolved r
      /\ status r = 0 /\ exists message, error r = Some message.
Proof.
  intros Hparse.
  induction script as [|o script IH]; intros attempt Hall Hne Hlen; [congruence|].
  inversion Hall as [|? ? Ho Hall']; subst.
  destruct (Z.lt_ge_cases attempt (retries options)) as [Hlt|Hge].
  - rewrite (checkURL_retry _ _ _ _ _ _ Hparse Ho Hlt).
    cbn [length] in Hlen.
    destruct (IH (attempt + 1) Hall') as (r & Hr & Hfields).
    { destruct script; [simpl in Hlen; lia|discriminate]. }
    { lia. }
    exists r. rewrite Hr. split; [reflexivity|exact Hfields].
  - rewrite (checkURL_exhausted _ _ _ _ _ _ Hparse Ho Hge). cbn [snd].
    eexists. split; [reflexivity|]. cbn [status error]. eauto.
Qed.

(** C3, as the program behaves.  [checkURL] rejects in two cases and in
    no other: when the URL does not parse, [new URL(url)] throwing at
    the top of the function before any request is made, and when the
    http client refuses the request, [protocol.request] throwing inside
    the executor of the promise.  Connection errors and timeouts are
    what it turns into results: when the requests on a URL that parses
    all fail until no attempt is left, it resolves with a result whose
    status is 0 and whose error is set. *)
Theorem checkURL_rejects_unparsed_or_refused url options attempt script :
  (forall message,
      snd (checkURL url options attempt script) = Rejected message
      <-> (URL_parse url = None /\ message = "Invalid URL")
          \/ (URL_parse url <> None /\ exists rest, script = Refused message :: rest))
  /\ (URL_parse url = None ->
      checkURL url options attempt script = ([], Rejected "Invalid URL"))
  /\ (URL_parse url <> None ->
      Forall (fun o => is_failure o = true) script ->
      script <> [] ->
      retries options - attempt < Z.of_nat (length script) ->
      exists r,
        snd (checkURL url options attempt script) = Resolved r
        /\ status r = 0 /\ exists message, error r = Some message).
Proof.
  split; [intros message; apply checkURL_rejected_iff|]. split.
  - apply checkURL_unparsed.
  - intros Hsome Hall Hne Hlen.
    destruct (URL_parse url) as [parsedURL|] eqn:Hparse; [|congruence].
    exact (checkURL_failures_resolve _ _ _ Hparse _ _ Hall Hne Hlen).
Qed.

Lemma is_redirect_status_3xx (code : Z) :
  is_redirect_status code = true -> 300 <= code < 400.
Proof.
  unfold is_redirect_status. intros H.
  repeat (apply orb_true_iff in H; destruct H as [H|H]);
    apply Z.eqb_eq in H; lia.
Qed.

Lemma str_truthy_Some (o : option string) :
  JS.str_truthy o = true -> exists s, o = Some s /\ s <> "".
Proof.
  destruct o as [[|c s]|]; simpl; try discriminate.
  intros _. exists (String c s). split; [reflexivity|discriminate].
Qed.

Lemma redirect_observed_cons o script :
  redirect_observed script -> redirect_observed (o :: script).
Proof.
  intros (code & hdrs & body & elapsed & location & Hin & Hrest).
  exists code, hdrs, body, elapsed, location. split; [right; exact Hin|exact Hrest].
Qed.

Lemma checkURL_redirects_observed : forall script u options attempt r,
  snd (checkURL u options attempt script) = Resolved r ->
  redirects r <> [] ->
  followRedirects options = true /\ redirect_observed script.
Proof.
  induction script as [|o script IH]; intros u options attempt r.
  - cbn [checkURL]. destruct (URL_parse u); discriminate.
  - destruct (URL_parse u) as [parsedURL|] eqn:Hparse;
      [|rewrite checkURL_unparsed by exact Hparse; discriminate].
    assert (Hfailed : is_failure o = true ->
              snd (checkURL u options attempt (o :: script)) = Resolved r ->
              redirects r <> [] ->
              followRedirects options = true /\ redirect_observed (o :: script)).
    { intros Ho. rewrite (checkURL_failure_settles _ _ _ _ _ _ Hparse Ho).
      destruct (attempt <? retries options);
        [|intros [= <-]; cbn [redirects]; congruence].
      specialize (IH u options (attempt + 1)).
      destruct (snd (checkURL u options (attempt + 1) script)) as [rr|m|m|];
        cbn [then_] in *; try discriminate.
      intros [= <-] Hne. destruct (IH rr eq_refl Hne) as [Hf Hobs].
      split; [exact Hf|exact (redirect_observed_cons _ _ Hobs)]. }
    destruct o as [code hdrs body elapsed|message elapsed| |message];
      [|exact (Hfailed eq_refl)|exact (Hfailed eq_refl)
       |cbn [checkURL]; rewrite Hparse; discriminate].
    clear Hfailed. cbn [checkURL]. rewrite Hparse.
    cbn [statusCode res_headers].
    destruct (followRedirects options && is_redirect_status code
              && JS.str_truthy (hdrs !! "location")) eqn:Hcond;
      [|intros [= <-]; cbn [redirects]; congruence].
    destruct (_ <=? _); [|intros [= <-]; cbn [redirects]; congruence].
    intros _ _.
    apply andb_true_iff in Hcond as [Hcond Hloc].
    apply andb_true_iff in Hcond as [Hfollow Hcode].
    split; [exact Hfollow|].
    destruct (str_truthy_Some _ Hloc) as (location & Hl & Hne).
    exists code, hdrs, body, elapsed, location.
    split; [left; reflexivity|].
    split; [exact (is_redirect_status_3xx _ Hcode)|].
    split; assumption.
Qed.

(** C6. The [redirects] of a result are empty unless [followRedirects]
    is true and a response with a 3xx status and a Location header was
    received; and with [followRedirects = false] a 302 response is
    returned as it is, with status 302 and no redirects. *)
Theorem checkURL_redirects_empty_unless_followed :
  (forall script u options attempt r,
      snd (checkURL u options attempt script) = Resolved r ->
      redirects r <> [] ->
      followRedirects options = true /\ redirect_observed script)
  /\ (forall u parsedURL options attempt hdrs body elapsed script,
      URL_parse u = Some parsedURL ->
      followRedirects options = false ->
      snd (checkURL u options attempt (Responded 302 hdrs body elapsed :: script)) =
        Resolved {| url := u; status := 302; statusText := "Found";
                    responseTime := elapsed;
                    size := Z.of_nat (String.length body);
                    result_headers := hdrs; redirects := []; error := None |}).
Proof.
  split.
  - exact checkURL_redirects_observed.
  - intros u parsedURL options attempt hdrs body elapsed script Hparse Hfollow.
    rewrite (checkURL_plain _ _ _ _ _ _ _ _ _ Hparse); [reflexivity|].
    left. rewrite Hfollow. reflexivity.
Qed.

(** ** Properties of runChecks *)

Lemma isFulfilled_undefined (p : PromiseObj) :
  Promise_get p "isFulfilled" = JS.Undefined.
Proof. reflexivity. Qed.

Lemma remove_completed_keeps_all (i : nat) (running : list PromiseObj) :
  remove_completed i running = running.
Proof.
  induction i as [|j IH]; cbn [remove_completed]; [reflexivity|].
  destruct (running !! j) as [p|]; [|exact IH].
  rewrite isFulfilled_undefined. cbn [JS.truthy]. exact IH.
Qed.

Lemma start_checks_inv (w : World) (options : Options) :
  forall q r s,
    length s = length r ->
    (r = [] \/ Z.of_nat (length r) <= concurrent options) ->
    let '(queue1, running1, started1) := start_checks w options q r s in
    length started1 = length running1
    /\ (length queue1 + length running1)%nat = (length q + length r)%nat
    /\ (running1 = [] \/ Z.of_nat (length running1) <= concurrent options).
Proof.
  induction q as [|u q IH]; intros r s Hlen Hlim; cbn [start_checks].
  - repeat split; assumption.
  - destruct (Z.ltb_spec (Z.of_nat (length r)) (concurrent options)) as [Hlt|Hge].
    + specialize (IH (r ++ [{| promise_id := length s |}])
                     (s ++ [snd (checkURL u options 1 (net w (length s)))])).
      rewrite !length_app in IH. cbn [length] in IH.
      destruct (start_checks w options q _ _) as [[queue1 running1] started1].
      destruct IH as (H1 & H2 & H3); [lia|right; lia|].
      repeat split; [exact H1| cbn [length]; lia | exact H3].
    + repeat split; assumption.
Qed.

Lemma complete_keeps options k st st' :
  complete options k st = inl st' ->
  queue st' = queue st /\ running st' = running st /\ started st' = started st.
Proof.
  unfold complete. destruct (bool_decide _); [intros [= <-]; auto|].
  destruct (started st !! k) as [[r|m|m|]|]; intros [= <-]; auto.
Qed.

Lemma complete_all_keeps options ks : forall st st',
  complete_all options ks st = inl st' ->
  queue st' = queue st /\ running st' = running st /\ started st' = started st.
Proof.
  induction ks as [|k ks IH]; intros st st'; cbn [complete_all].
  - intros [= <-]; auto.
  - destruct (complete options k st) as [st1|m] eqn:Hc; [|discriminate].
    intros Hall. apply complete_keeps in Hc as (Hq & Hr & Hs).
    apply IH in Hall as (Hq' & Hr' & Hs'). repeat split; congruence.
Qed.

Lemma await_race_keeps w options n st :
  let st' := fst (await_race w options n st) in
  queue st' = queue st /\ running st' = running st /\ started st' = started st.
Proof.
  unfold await_race.
  destruct (List.filter (is_settled st) (running st)); [|cbn; auto].
  destruct (complete_all options (arrivals w n) st) as [st1|m] eqn:Hall; [|cbn; auto].
  apply complete_all_keeps in Hall.
  destruct (List.filter _ (settled st1)); cbn; exact Hall.
Qed.

Lemma runChecks_loop_goes_on (w : World) (options : Options) (total : nat) :
  forall fuel n st,
    dispatch_inv options total st ->
    queue st <> [] \/ running st <> [] ->
    (forall rs st', runChecks_loop w options fuel n st <> Returned rs st')
    /\ dispatch_inv options total (state_of (runChecks_loop w options fuel n st)).
Proof.
  induction fuel as [|fuel IH]; intros n st Hinv Hbusy; cbn [runChecks_loop].
  - split; [discriminate|exact Hinv].
  - assert (Hcond : (0 <? Z.of_nat (length (queue st)))
                    || (0 <? Z.of_nat (length (running st))) = true).
    { apply orb_true_iff.
      destruct Hbusy as [Hq|Hr]; [left|right]; apply Z.ltb_lt.
      - destruct (queue st); [congruence|cbn [length]; lia].
      - destruct (running st); [congruence|cbn [length]; lia]. }
    rewrite Hcond.
    destruct Hinv as (Hs & Hn & Hlim).
    pose proof (start_checks_inv w options (queue st) (running st) (started st) Hs Hlim)
      as Hstart.
    destruct (start_checks w options (queue st) (running st) (started st))
      as [[queue1 running1] started1].
    destruct Hstart as (Hs1 & Hn1 & Hlim1).
    set (st1 := {| results := results st; queue := queue1; running := running1;
                   started := started1; settled := settled st;
                   console := console st |}).
    assert (Hinv1 : dispatch_inv options total st1).
    { unfold dispatch_inv; cbn; repeat split; [exact Hs1|lia|exact Hlim1]. }
    destruct (Z.ltb_spec 0 (Z.of_nat (length running1))) as [Hpos|Hzero].
    + pose proof (await_race_keeps w options n st1) as Hkeep.
      destruct (await_race w options n st1) as [st2 wake].
      cbn [fst] in Hkeep. destruct Hkeep as (Hq2 & Hr2 & Hs2).
      assert (Hinv2 : dispatch_inv options total st2).
      { destruct Hinv1 as (A & B & C). unfold dispatch_inv.
        rewrite Hq2, Hr2, Hs2. repeat split; assumption. }
      destruct wake; try (split; [discriminate|exact Hinv2]).
      rewrite remove_completed_keeps_all.
      apply IH.
      * exact Hinv2.
      * right. cbn [running]. rewrite Hr2. cbn [running st1].
        destruct running1; [cbn [length] in Hpos; lia|discriminate].
    + apply IH; [exact Hinv1|].
      left. cbn [queue st1].
      assert (length running1 = 0)%nat by lia.
      destruct Hbusy as [Hq|Hr].
      * destruct (queue st); [congruence|]. cbn [length] in Hn1.
        destruct queue1; [cbn [length] in Hn1; lia|discriminate].
      * destruct (running st); [congruence|]. cbn [length] in Hn1.
        destruct queue1; [cbn [length] in Hn1; lia|discriminate].
Qed.


(** C1, as the program behaves.  On a non-empty list of URLs
    [runChecks] never returns, however long it runs and whatever the
    network does: no promise ever leaves [running], so its loop goes on
    for ever once the first checks are started; and no more checks are
    ever started than the limit allows, the other URLs staying in the
    queue. *)
Theorem runChecks_never_returns (w : World) (fuel : nat) (urls : list string)
    (options : Options) :
  urls <> [] ->
  (forall rs st, runChecks w fuel urls options <> Returned rs st)
  /\ (let st := state_of (runChecks w fuel urls options) in
      Z.of_nat (length (started st)) <= Z.max 0 (concurrent options)
      /\ (length (queue st) + length (started st))%nat = length urls).
Proof.
  intros Hne. unfold runChecks.
  destruct (runChecks_loop_goes_on w options (length urls) fuel 0
              {| results := []; queue := urls; running := []; started := [];
                 settled := []; console := [] |}) as [Hnever Hinv].
  - unfold dispatch_inv; cbn. repeat split; [lia|left; reflexivity].
  - left. exact Hne.
  - split; [exact Hnever|].
    destruct Hinv as (Hs & Hn & Hlim). cbn zeta. rewrite Hs. split; [|exact Hn].
    destruct Hlim as [-> | Hle]; cbn [length]; lia.
Qed.


(** ** Properties of the summary *)

Lemma reduce_sum (results : list CheckResult) (acc : Z) :
  fold_left (fun sum r => sum + responseTime r) results acc = acc + total_time results.
Proof.
  revert acc. induction results as [|r rs IH]; intros acc; simpl.
  - unfold total_time; simpl; lia.
  - rewrite IH. unfold total_time; simpl; lia.
Qed.

Lemma count_ext (p q : CheckResult -> bool) (results : list CheckResult) :
  (forall r, p r = q r) -> count p results = count q results.
Proof.
  intros Hpq. unfold count. f_equal. f_equal.
  induction results as [|r rs IH]; simpl; [reflexivity|].
  rewrite Hpq, IH. reflexivity.
Qed.

Lemma class_of_range (code : Z) :
  ((200 <=? code) && (code <? 300) = in_class Success code)
  /\ ((300 <=? code) && (code <? 400) = in_class Redirection code)
  /\ ((400 <=? code) && (code <? 500) = in_class ClientError code)
  /\ ((code =? 0) = in_class NoResponse code).
Proof.
  unfold in_class, status_class.
  destruct (Z.eqb_spec code 0) as [->|Hne]; [repeat split; reflexivity|].
  destruct (Z.eqb_spec (code / 100) 2), (Z.eqb_spec (code / 100) 3),
    (Z.eqb_spec (code / 100) 4), (Z.eqb_spec (code / 100) 5),
    (Z.leb_spec 200 code), (Z.ltb_spec code 300), (Z.leb_spec 300 code),
    (Z.ltb_spec code 400), (Z.leb_spec 400 code), (Z.ltb_spec code 500);
    simpl; repeat split; try reflexivity; exfalso;
    Z.div_mod_to_equations; lia.
Qed.

Lemma round_div_nearest (a b : Z) :
  0 < b ->
  exists q, JS.round_div a b = JS.Int q /\ 2 * b * q <= 2 * a + b < 2 * b * (q + 1).
Proof.
  intros Hb. unfold JS.round_div.
  destruct (Z.eqb_spec b 0); [lia|].
  exists ((2 * a + b) / (2 * b)). split; [reflexivity|].
  Z.div_mod_to_equations; nia.
Qed.

(** C7, as the program has it.  Over a non-empty result set the summary
    counts the results of each class: 2xx as successful, 3xx as
    redirects, 4xx as client errors, every status from 500 up as server
    errors, status 0 as failed; and its average is the sum of the
    response times of all results, failed ones included, divided by
    their number and rounded to the nearest integer, a half going up. *)
Theorem summarize_counts_and_rounded_mean (results : list CheckResult) :
  results <> [] ->
  let s := summarize results in
  total s = Z.of_nat (length results)
  /\ successful s = count (fun r => in_class Success (status r)) results
  /\ redirected s = count (fun r => in_class Redirection (status r)) results
  /\ clientErrors s = count (fun r => in_class ClientError (status r)) results
  /\ serverErrors s = count (fun r => 500 <=? status r) results
  /\ failed s = count (fun r => in_class NoResponse (status r)) results
  /\ exists q,
       avgTime s = JS.Int q
       /\ 2 * total s * q <= 2 * total_time results + total s < 2 * total s * (q + 1).
Proof.
  intros Hne. cbn zeta.
  unfold summarize; cbn [total successful redirected clientErrors serverErrors failed avgTime].
  split; [reflexivity|].
  split; [apply count_ext; intros r; apply class_of_range|].
  split; [apply count_ext; intros r; apply class_of_range|].
  split; [apply count_ext; intros r; apply class_of_range|].
  split; [reflexivity|].
  split; [apply count_ext; intros r; apply class_of_range|].
  rewrite reduce_sum, Z.add_0_l.
  apply round_div_nearest.
  destruct results; [congruence|]. simpl length. lia.
Qed.

(** ** Properties of the export *)

Lemma export_content_format (results : list CheckResult) (format : string) :
  match export_content results format with
  | inl _ => format = "json" \/ format = "csv"
  | inr message => message = "Unknown format: " +:+ format
                   /\ format <> "json" /\ format <> "csv"
  end.
Proof.
  unfold export_content.
  destruct (String.eqb_spec format "json"); [left; assumption|].
  destruct (String.eqb_spec format "csv"); [right; assumption|].
  repeat split; assumption.
Qed.

(** X26. What the export does once [runChecks] has returned.  With the
    format ['table'] [exportResults] throws ['Unknown format: table']
    and writes nothing; it saves a file only for the formats ['json']
    and ['csv']; and when an output file is requested with the format
    ['table'], [main] ends with exit code 1 and that error on the
    standard error, after all the run has printed, the summary included
    unless the run is quiet. *)
Theorem export_table_throws_after_summary :
  (forall results path,
      exportResults results "table" path = ExportThrew "Unknown format: table")
  /\ (forall results format path p content log,
      exportResults results format path = Saved p content log ->
      format = "json" \/ format = "csv")
  /\ (forall options out results path,
      output options = Some path -> path <> "" -> format options = "table" ->
      main_finish options out results =
        {| stdout := if quiet options then out else out ++ printSummary results;
           stderr := [COLORS.red +:+ "Error: Unknown format: table" +:+ COLORS.reset];
           saved := None;
           exit_code := Some 1 |}).
Proof.
  split; [|split].
  - intros results path. reflexivity.
  - intros results format path p content log Hsaved.
    unfold exportResults in Hsaved.
    pose proof (export_content_format results format) as Hfmt.
    destruct (export_content results format); [exact Hfmt|discriminate].
  - intros options out results path Hout Hpath Hfmt.
    unfold main_finish. rewrite Hout, Hfmt.
    destruct path as [|c path']; [congruence|].
    cbn [JS.str_truthy default]. reflexivity.
Qed.

(** ** Properties of the CSV export *)

Lemma append_cons (x : ascii) (a b : string) : String x a +:+ b = String x (a +:+ b).
Proof. reflexivity. Qed.

Lemma append_empty_l (a : string) : "" +:+ a = a.
Proof. reflexivity. Qed.

Lemma append_assoc (a b c : string) : (a +:+ b) +:+ c = a +:+ (b +:+ c).
Proof.
  induction a as [|x a IH]; [reflexivity|].
  rewrite !append_cons. f_equal. exact IH.
Qed.

Lemma append_empty_r (a : string) : a +:+ "" = a.
Proof.
  induction a as [|x a IH]; [reflexivity|].
  rewrite append_cons. f_equal. exact IH.
Qed.

Lemma parse_quoted_text (s : string) : forall field fields records rest,
  no_dquote s = true ->
  CSV.parse_from CSV.Quoted field fields records (s +:+ rest)
  = CSV.parse_from CSV.Quoted (field +:+ s) fields records rest.
Proof.
  induction s as [|c s IH]; intros field fields records rest Hs.
  - rewrite append_empty_l, append_empty_r. reflexivity.
  - cbn [no_dquote] in Hs. apply andb_true_iff in Hs as [Hc Hs].
    rewrite append_cons. cbn [CSV.parse_from].
    apply negb_true_iff in Hc. rewrite Hc.
    rewrite (IH _ _ _ _ Hs). unfold CSV.push.
    rewrite append_assoc, append_cons, append_empty_l. reflexivity.
Qed.

Lemma plain_char_eqb (c : ascii) :
  plain_char c = true ->
  Ascii.eqb c JS.dquote = false /\ Ascii.eqb c "," = false
  /\ Ascii.eqb c JS.newline = false.
Proof.
  unfold plain_char. intros Hc.
  apply andb_true_iff in Hc as [Hc Hnl].
  apply andb_true_iff in Hc as [Hdq Hcomma].
  apply negb_true_iff in Hdq, Hcomma, Hnl. auto.
Qed.

Lemma parse_unquoted_text (s : string) : forall field fields records rest,
  plain s = true ->
  CSV.parse_from CSV.Unquoted field fields records (s +:+ String "," rest)
  = CSV.parse_from CSV.FieldStart "" (fields ++ [field +:+ s]) records rest.
Proof.
  induction s as [|c s IH]; intros field fields records rest Hs.
  - rewrite append_empty_l, append_empty_r. reflexivity.
  - cbn [plain] in Hs. apply andb_true_iff in Hs as [Hc Hs].
    destruct (plain_char_eqb _ Hc) as (Hdq & Hcomma & Hnl).
    rewrite append_cons. cbn [CSV.parse_from]. rewrite Hdq, Hcomma, Hnl.
    rewrite (IH _ _ _ _ Hs). unfold CSV.push.
    rewrite append_assoc, append_cons, append_empty_l. reflexivity.
Qed.

Lemma parse_number_field (s : string) : forall fields records rest,
  plain s = true ->
  CSV.parse_from CSV.FieldStart "" fields records (s +:+ String "," rest)
  = CSV.parse_from CSV.FieldStart "" (fields ++ [s]) records rest.
Proof.
  intros fields records rest Hs. destruct s as [|c s]; [reflexivity|].
  pose proof Hs as Hs'. cbn [plain] in Hs'. apply andb_true_iff in Hs' as [Hc Hs'].
  destruct (plain_char_eqb _ Hc) as (Hdq & Hcomma & Hnl).
  rewrite append_cons. cbn [CSV.parse_from]. rewrite Hdq, Hcomma, Hnl.
  rewrite (parse_unquoted_text _ _ _ _ _ Hs'). reflexivity.
Qed.

Lemma pretty_N_char_plain (d : N) : plain_char (pretty_N_char d) = true.
Proof. unfold pretty_N_char. repeat case_match; reflexivity. Qed.

Lemma pretty_N_go_plain (x : N) : forall s,
  plain s = true -> plain (pretty_N_go x s) = true.
Proof.
  induction (N.lt_wf_0 x) as [x _ IH]; intros s Hs.
  destruct (N.eq_dec x 0%N) as [->|Hx]; [rewrite pretty_N_go_0; exact Hs|].
  rewrite pretty_N_go_step by lia.
  apply IH; [apply N.div_lt; lia|].
  cbn [plain]. rewrite pretty_N_char_plain, Hs. reflexivity.
Qed.

Lemma num_to_string_plain (z : Z) : plain (JS.num_to_string z) = true.
Proof.
  unfold JS.num_to_string, pretty, pretty_Z.
  destruct z as [|x|x]; [reflexivity| |].
  - unfold pretty, pretty_positive, pretty, pretty_N.
    destruct (decide (N.pos x = 0%N)); [reflexivity|].
    apply pretty_N_go_plain. reflexivity.
  - rewrite append_cons, append_empty_l. cbn [plain].
    replace (plain_char "-") with true by reflexivity. cbn [andb].
    unfold pretty, pretty_positive, pretty, pretty_N.
    destruct (decide (N.pos x = 0%N)); [reflexivity|].
    apply pretty_N_go_plain. reflexivity.
Qed.

Lemma parse_open_quote field fields records rest :
  CSV.parse_from CSV.FieldStart field fields records (String JS.dquote rest)
  = CSV.parse_from CSV.Quoted "" fields records rest.
Proof. reflexivity. Qed.

Lemma parse_close_quote field fields records rest :
  CSV.parse_from CSV.Quoted field fields records (String JS.dquote rest)
  = CSV.parse_from CSV.QuoteSeen field fields records rest.
Proof. reflexivity. Qed.

Lemma parse_comma_after_quote field fields records rest :
  CSV.parse_from CSV.QuoteSeen field fields records (String "," rest)
  = CSV.parse_from CSV.FieldStart "" (fields ++ [field]) records rest.
Proof. reflexivity. Qed.

Lemma parse_newline_after_quote field fields records rest :
  CSV.parse_from CSV.QuoteSeen field fields records (String JS.newline rest)
  = CSV.parse_from CSV.FieldStart "" [] (records ++ [fields ++ [field]]) rest.
Proof. reflexivity. Qed.

Lemma parse_csv_row (r : CheckResult) (records : list (list string)) (rest : string) :
  quote_free r = true ->
  CSV.parse_from CSV.FieldStart "" [] records (csv_row r +:+ rest)
  = CSV.parse_from CSV.FieldStart "" [] (records ++ [csv_fields r]) rest.
Proof.
  unfold quote_free. intros Hr.
  apply andb_true_iff in Hr as [Hr Herror].
  apply andb_true_iff in Hr as [Hurl Htext].
  unfold csv_row.
  rewrite !append_assoc.
  repeat (rewrite append_cons || rewrite append_empty_l).
  rewrite parse_open_quote, (parse_quoted_text _ _ _ _ _ Hurl),
    parse_close_quote, parse_comma_after_quote.
  rewrite (parse_number_field _ _ _ _ (num_to_string_plain _)).
  rewrite parse_open_quote, (parse_quoted_text _ _ _ _ _ Htext),
    parse_close_quote, parse_comma_after_quote.
  rewrite (parse_number_field _ _ _ _ (num_to_string_plain _)).
  rewrite (parse_number_field _ _ _ _ (num_to_string_plain _)).
  rewrite parse_open_quote, (parse_quoted_text _ _ _ _ _ Herror),
    parse_close_quote, parse_newline_after_quote.
  reflexivity.
Qed.

Lemma parse_csv_rows (results : list CheckResult) :
  Forall (fun r => quote_free r = true) results ->
  forall records,
    CSV.parse_from CSV.FieldStart "" [] records (csv_rows results)
    = Some (records ++ map csv_fields results).
Proof.
  induction 1 as [|r results Hr _ IH]; intros records; cbn [csv_rows fold_right map].
  - cbn [CSV.parse_from]. rewrite app_nil_r. reflexivity.
  - fold (csv_rows results). rewrite (parse_csv_row _ _ _ Hr), IH, <- app_assoc.
    reflexivity.
Qed.

Lemma csv_content_rows (results : list CheckResult) : forall content,
  fold_left (fun content r => content +:+ csv_row r) results content
  = content +:+ csv_rows results.
Proof.
  induction results as [|r results IH]; intros content; cbn [fold_left csv_rows fold_right].
  - rewrite append_empty_r. reflexivity.
  - fold (csv_rows results). rewrite IH, append_assoc. reflexivity.
Qed.

Lemma parse_csv_header (rest : string) :
  CSV.parse_from CSV.FieldStart "" [] [] (csv_header +:+ rest)
  = CSV.parse_from CSV.FieldStart "" [] [csv_header_fields] rest.
Proof. reflexivity. Qed.

(** X25. What the CSV export does achieve: when no URL, status text or
    error holds a double quote, the exported document reads back as the
    header and, row by row, the six values of each result; commas and
    line breaks inside the quoted fields are kept. *)
Theorem csv_export_round_trip_without_quotes (results : list CheckResult) :
  Forall (fun r => quote_free r = true) results ->
  exists content,
    export_content results "csv" = inl content
    /\ CSV.parse content = Some (csv_header_fields :: map csv_fields results).
Proof.
  intros Hfree. eexists. split; [reflexivity|].
  unfold CSV.parse.
  rewrite csv_content_rows, parse_csv_header, (parse_csv_rows _ Hfree).
  reflexivity.
Qed.

(** ** Further properties of parseArgs *)

Lemma add_header_keeps header o :
  urls (add_header header o) = urls o /\ method (add_header header o) = method o.
Proof.
  unfold add_header.
  repeat match goal with
         | |- context [match ?x with _ => _ end] => destruct x
         end; split; reflexivity.
Qed.

Lemma parseArgs_step_urls o arg next o' consumed :
  parseArgs_step o arg next = StepNext o' consumed ->
  urls o' = urls o
  \/ (urls o' = urls o ++ [arg] /\ consumed = false
      /\ isValidURL arg = true /\ JS.startsWith arg "-" = false).
Proof.
  unfold parseArgs_step.
  repeat match goal with
         | |- context [if ?c then _ else _] => destruct c eqn:?
         end;
    intros Heq; inversion Heq; subst; clear Heq;
    try (left; reflexivity);
    try (left; apply add_header_keeps).
  right. cbn [urls set_urls].
  match goal with
  | H : negb _ && _ = true |- _ => apply andb_true_iff in H as [Hdash Hvalid]
  end.
  apply negb_true_iff in Hdash. auto.
Qed.

Lemma parseArgs_loop_urls (n : nat) : forall args o o',
  (length args <= n)%nat ->
  parseArgs_loop o args = Parsed o' ->
  exists added,
    urls o' = urls o ++ added
    /\ sublist added args
    /\ Forall (fun u => isValidURL u = true /\ JS.startsWith u "-" = false) added.
Proof.
  induction n as [|n IH]; intros args o o' Hlen Hrun.
  - destruct args; [|simpl in Hlen; lia]. simpl in Hrun. injection Hrun as <-.
    exists []. rewrite app_nil_r. repeat split; constructor.
  - destruct args as [|arg rest]; simpl in Hrun.
    { injection Hrun as <-. exists []. rewrite app_nil_r. repeat split; constructor. }
    destruct (parseArgs_step o arg (head rest)) as [notice|o1 consumed] eqn:Hstep;
      [discriminate|].
    simpl in Hlen.
    destruct (parseArgs_step_urls _ _ _ _ _ Hstep)
      as [Hsame | (Hpush & -> & Hvalid & Hdash)].
    + assert (Hrest : exists added,
                 urls o' = urls o1 ++ added /\ sublist added rest
                 /\ Forall (fun u => isValidURL u = true /\ JS.startsWith u "-" = false)
                      added).
      { destruct consumed.
        - destruct rest as [|v rest'].
          + injection Hrun as <-. exists []. rewrite app_nil_r.
            repeat split; constructor.
          + destruct (IH rest' o1 o') as (added & H1 & H2 & H3);
              [simpl in Hlen; lia|exact Hrun|].
            exists added. repeat split; [exact H1|apply sublist_cons; exact H2|exact H3].
        - apply (IH rest o1 o'); [lia|exact Hrun]. }
      destruct Hrest as (added & H1 & H2 & H3).
      exists added. rewrite H1, Hsame.
      repeat split; [apply sublist_cons; exact H2|exact H3].
    + destruct (IH rest o1 o') as (added & H1 & H2 & H3); [lia|exact Hrun|].
      exists (arg :: added). rewrite H1, Hpush, <- app_assoc.
      repeat split; [apply sublist_skip; exact H2|].
      constructor; [split; assumption|exact H3].
Qed.

(** X1. The URLs [parseArgs] collects are arguments of the command
    line, in the order they were given; each of them parses as a URL and
    none starts with a dash. *)
Theorem parseArgs_collects_valid_urls (argv : list string) (o : Options) :
  parseArgs argv = Parsed o ->
  sublist (urls o) argv
  /\ Forall (fun u => isValidURL u = true /\ JS.startsWith u "-" = false) (urls o).
Proof.
  intros Hrun.
  destruct (parseArgs_loop_urls (length argv) argv default_options o)
    as (added & H1 & H2 & H3); [lia|exact Hrun|].
  cbn [urls default_options app] in H1. rewrite H1. split; assumption.
Qed.

Lemma upper_char_idempotent (c : ascii) :
  JS.upper_char (JS.upper_char c) = JS.upper_char c.
Proof. destruct c as [[] [] [] [] [] [] [] []]; reflexivity. Qed.

Lemma toUpperCase_idempotent (s : string) :
  JS.toUpperCase (JS.toUpperCase s) = JS.toUpperCase s.
Proof.
  induction s as [|c s IH]; cbn [JS.toUpperCase]; [reflexivity|].
  rewrite upper_char_idempotent, IH. reflexivity.
Qed.

Lemma parseArgs_step_method o arg next o' consumed :
  JS.toUpperCase (method o) = method o ->
  parseArgs_step o arg next = StepNext o' consumed ->
  JS.toUpperCase (method o') = method o'.
Proof.
  intros Ho. unfold parseArgs_step.
  repeat match goal with
         | |- context [if ?c then _ else _] => destruct c
         end;
    intros Heq; inversion Heq; subst; clear Heq;
    try exact Ho;
    try (rewrite (proj2 (add_header_keeps _ _)); exact Ho).
  cbn [method set_method]. apply toUpperCase_idempotent.
Qed.

Lemma parseArgs_loop_method (n : nat) : forall args o o',
  (length args <= n)%nat ->
  JS.toUpperCase (method o) = method o ->
  parseArgs_loop o args = Parsed o' ->
  JS.toUpperCase (method o') = method o'.
Proof.
  induction n as [|n IH]; intros args o o' Hlen Ho Hrun.
  - destruct args; [|simpl in Hlen; lia]. simpl in Hrun. congruence.
  - destruct args as [|arg rest]; simpl in Hrun; [congruence|].
    destruct (parseArgs_step o arg (head rest)) as [notice|o1 consumed] eqn:Hstep;
      [discriminate|].
    pose proof (parseArgs_step_method _ _ _ _ _ Ho Hstep) as Ho1.
    simpl in Hlen.
    destruct consumed.
    + destruct rest as [|v rest']; [congruence|].
      apply (IH rest' o1); [simpl in Hlen; lia|assumption|assumption].
    + apply (IH rest o1); [lia|assumption|assumption].
Qed.

(** X2. Whatever the command line, the HTTP method of the options is
    in upper case: upper-casing it again changes nothing. *)
Theorem parseArgs_method_is_upper_case (argv : list string) (o : Options) :
  parseArgs argv = Parsed o ->
  JS.toUpperCase (method o) = method o.
Proof.
  intros Hrun.
  apply (parseArgs_loop_method (length argv) argv default_options o);
    [lia|reflexivity|exact Hrun].
Qed.

Lemma split_not_nil (c : ascii) (s : string) : JS.split c s <> [].
Proof.
  destruct s as [|a r]; cbn [JS.split]; [discriminate|].
  destruct (Ascii.eqb a c); [discriminate|].
  destruct (JS.split c r); discriminate.
Qed.

Lemma join_cons (sep x : string) (l : list string) :
  l <> [] -> JS.join sep (x :: l) = x +:+ sep +:+ JS.join sep l.
Proof. destruct l; [congruence|reflexivity]. Qed.

Lemma join_split (c : ascii) (s : string) :
  JS.join (String c "") (JS.split c s) = s.
Proof.
  induction s as [|a r IH]; cbn [JS.split]; [reflexivity|].
  destruct (Ascii.eqb_spec a c) as [->|Hne].
  - rewrite join_cons by apply split_not_nil.
    rewrite IH, append_empty_l, append_cons, append_empty_l. reflexivity.
  - pose proof (split_not_nil c r) as Hnil.
    destruct (JS.split c r) as [|x l]; [congruence|].
    destruct l as [|y l].
    + cbn [JS.join] in *. rewrite IH. reflexivity.
    + rewrite join_cons by discriminate.
      rewrite join_cons in IH by discriminate.
      rewrite append_cons, IH. reflexivity.
Qed.

Lemma split_at_first (c : ascii) (key value : string) :
  JS.includes_char key c = false ->
  JS.split c (key +:+ String c value) = key :: JS.split c value.
Proof.
  induction key as [|a key IH]; intros Hkey.
  - rewrite append_empty_l. cbn [JS.split]. rewrite Ascii.eqb_refl. reflexivity.
  - cbn [JS.includes_char] in Hkey. apply orb_false_iff in Hkey as [Ha Hkey].
    rewrite append_cons. cbn [JS.split]. rewrite Ha, (IH Hkey). reflexivity.
Qed.

Lemma includes_char_append (c : ascii) (key value : string) :
  JS.includes_char (key +:+ String c value) c = true.
Proof.
  induction key as [|a key IH].
  - rewrite append_empty_l. cbn [JS.includes_char]. rewrite Ascii.eqb_refl. reflexivity.
  - rewrite append_cons. cbn [JS.includes_char]. rewrite IH. apply orb_true_r.
Qed.

Lemma append_not_empty (key : string) (c : ascii) (value : string) :
  key +:+ String c value <> "".
Proof. destruct key; [rewrite append_empty_l|rewrite append_cons]; discriminate. Qed.

Lemma add_header_at_first_colon (key value : string) (o : Options) :
  JS.includes_char key ":" = false ->
  add_header (Some (key +:+ String ":" value)) o
  = set_headers (JS.set_property (JS.trim key) (JS.trim value) (headers o)) o.
Proof.
  intros Hkey. unfold add_header.
  pose proof (append_not_empty key ":" value) as Hne.
  destruct (key +:+ String ":" value) as [|a h] eqn:Hh; [congruence|].
  cbn [JS.str_truthy andb]. rewrite <- Hh.
  rewrite includes_char_append, (split_at_first _ _ _ Hkey).
  change ":" with (String ":" "") at 1. rewrite join_split. reflexivity.
Qed.

(** X3. A header argument is cut at its first colon: the name before
    it and the whole of the value after it, further colons included, are
    trimmed and stored, and the other headers are kept.  The name
    [__proto__] is the exception: the assignment stores nothing and the
    headers stay as they were.  An argument without a colon is
    ignored. *)
Theorem add_header_cuts_at_first_colon (o : Options) :
  (forall key value,
      JS.includes_char key ":" = false ->
      JS.trim key <> "__proto__" ->
      headers (add_header (Some (key +:+ String ":" value)) o) !! JS.trim key
      = Some (JS.trim value)
      /\ forall name, name <> JS.trim key ->
           headers (add_header (Some (key +:+ String ":" value)) o) !! name
           = headers o !! name)
  /\ (forall key value,
      JS.includes_char key ":" = false ->
      JS.trim key = "__proto__" ->
      headers (add_header (Some (key +:+ String ":" value)) o) = headers o)
  /\ (forall header, JS.includes_char header ":" = false ->
      add_header (Some header) o = o).
Proof.
  split; [|split].
  - intros key value Hkey Hproto. rewrite (add_header_at_first_colon _ _ _ Hkey).
    cbn [headers set_headers]. unfold JS.set_property.
    apply String.eqb_neq in Hproto. rewrite Hproto. split.
    + apply lookup_insert_eq.
    + intros name Hname. apply lookup_insert_ne. congruence.
  - intros key value Hkey Hproto. rewrite (add_header_at_first_colon _ _ _ Hkey).
    cbn [headers set_headers]. unfold JS.set_property.
    rewrite Hproto. reflexivity.
  - intros header Hheader. unfold add_header. rewrite Hheader, andb_false_r.
    reflexivity.
Qed.

(** X4. A flag that takes a value and comes last on the command line
    finds no value.  The numeric flags then put their default back,
    whatever an earlier flag had set, and so do the method and the
    format; the file, the output and the headers are left without the
    value: no file, no output, headers unchanged. *)
Theorem parseArgs_last_flag_without_value (o : Options) :
  parseArgs_loop o ["--timeout"] = Parsed (set_timeout 10000 o)
  /\ parseArgs_loop o ["--retries"] = Parsed (set_retries 1 o)
  /\ parseArgs_loop o ["--max-redirects"] = Parsed (set_maxRedirects 10 o)
  /\ parseArgs_loop o ["--concurrent"] = Parsed (set_concurrent 5 o)
  /\ parseArgs_loop o ["--method"] = Parsed (set_method "GET" o)
  /\ parseArgs_loop o ["--format"] = Parsed (set_format "table" o)
  /\ parseArgs_loop o ["--file"] = Parsed (set_file None o)
  /\ parseArgs_loop o ["--output"] = Parsed (set_output None o)
  /\ parseArgs_loop o ["--header"] = Parsed o.
Proof. repeat split. Qed.

(** ** Properties of readURLsFromFile and of the start of main *)

(** X5. For a file that exists, [readURLsFromFile] returns one URL per
    line that is neither blank nor a comment once trimmed, and no more:
    the URLs are exactly those lines, each kept as it is when it starts
    with [http://] or [https://] and prefixed with [https://] when it
    does not, so that every URL returned starts with one of the two.
    For a file that does not exist it throws ['File not found']. *)
Theorem readURLsFromFile_gives_http_urls (filePath : string) :
  match fs_readFileSync filePath with
  | None => readURLsFromFile filePath = inr ("File not found: " +:+ filePath)
  | Some content =>
      exists us,
        readURLsFromFile filePath = inl us
        /\ (length us <= length (JS.split JS.newline content))%nat
        /\ Forall (fun u => has_http_scheme u = true) us
        /\ (forall u,
              In u us <->
              exists line,
                In line (JS.split JS.newline content)
                /\ JS.trim line <> ""
                /\ JS.startsWith (JS.trim line) "#" = false
                /\ u = if has_http_scheme (JS.trim line) then JS.trim line
                       else "https://" +:+ JS.trim line)
  end.
Proof.
  unfold readURLsFromFile.
  destruct (fs_readFileSync filePath) as [content|]; [|reflexivity].
  eexists. split; [reflexivity|]. split; [|split].
  - rewrite length_map.
    etransitivity; [apply List.filter_length_le|]. rewrite length_map. lia.
  - apply List.Forall_forall. intros u Hu.
    apply in_map_iff in Hu as (line & <- & _).
    unfold has_http_scheme.
    destruct (JS.startsWith line "http://" || JS.startsWith line "https://") eqn:Hs;
      [exact Hs|].
    replace (JS.startsWith ("https://" +:+ line) "https://") with true
      by (destruct line; reflexivity).
    apply orb_true_r.
  - intros u. split.
    + intros Hu.
      apply in_map_iff in Hu as (t & <- & Ht).
      apply filter_In in Ht as [Ht Hkeep].
      apply in_map_iff in Ht as (line & <- & Hline).
      apply andb_true_iff in Hkeep as [Hne Hhash].
      apply negb_true_iff in Hne, Hhash.
      exists line. split; [exact Hline|].
      split; [intros He; rewrite He in Hne; discriminate|].
      split; [exact Hhash|reflexivity].
    + intros (line & Hline & Hne & Hhash & ->).
      apply in_map_iff. exists (JS.trim line). split; [reflexivity|].
      apply filter_In. split; [apply in_map; exact Hline|].
      rewrite Hhash. apply String.eqb_neq in Hne. rewrite Hne. reflexivity.
Qed.

(** X6. When the file named by [--file] does not exist, [main] stops
    before any check: it prints nothing on the standard output, reports
    ['File not found'] and exits with code 1, were there URLs on the
    command line or not. *)
Theorem main_stops_on_missing_file (w : World) (fuel : nat) (argv : list string)
    (o : Options) (filePath : string) :
  parseArgs argv = Parsed o ->
  file o = Some filePath ->
  filePath <> "" ->
  fs_readFileSync filePath = None ->
  main w fuel argv =
    Ran {| stdout := [];
           stderr := [COLORS.red +:+ "Error: " +:+ ("File not found: " +:+ filePath)
                        +:+ COLORS.reset];
           saved := None;
           exit_code := Some 1 |}.
Proof.
  intros Hparse Hfile Hne Hread. unfold main. rewrite Hparse, Hfile.
  destruct filePath as [|c filePath']; [congruence|].
  cbn [JS.str_truthy from_option id]. unfold readURLsFromFile. rewrite Hread.
  reflexivity.
Qed.

(** X7. When the command line holds no valid URL and there is no file,
    or the file holds no URL, [main] makes no check: it reports
    ['No URLs provided'] and exits with code 1. *)
Theorem main_stops_without_urls (w : World) (fuel : nat) (argv : list string)
    (o : Options) :
  parseArgs argv = Parsed o ->
  urls o = [] ->
  JS.str_truthy (file o) = false
  \/ readURLsFromFile (default "" (file o)) = inl [] ->
  main w fuel argv =
    Ran {| stdout := [];
           stderr := [COLORS.red +:+ "Error: No URLs provided" +:+ COLORS.reset;
                      "Use --help for usage information"];
           saved := None;
           exit_code := Some 1 |}.
Proof.
  intros Hparse Hurls Hfile. unfold main. rewrite Hparse, Hurls.
  destruct (JS.str_truthy (file o)).
  - destruct Hfile as [Hfile| ->]; [discriminate|]. reflexivity.
  - reflexivity.
Qed.

(** ** Further properties of checkURL *)

Lemma then_identity (p : Settlement) :
  (forall message, p <> Rejected message) -> then_ p (fun r => r) = p.
Proof. destruct p; intros H; try reflexivity. exfalso. exact (H message eq_refl). Qed.

Lemma checkURL_response_any_attempt u options attempt attempt' code hdrs body elapsed
    script :
  snd (checkURL u options attempt (Responded code hdrs body elapsed :: script))
  = snd (checkURL u options attempt' (Responded code hdrs body elapsed :: script)).
Proof.
  cbn [checkURL]. destruct (URL_parse u) as [parsedURL|]; [|reflexivity].
  destruct (followRedirects options && _ && _); [|reflexivity].
  destruct (_ <=? _); [|reflexivity].
  destruct (URL_resolve _ u) as [target|]; [|reflexivity].
  destruct (checkURL target options 1 script). reflexivity.
Qed.

Lemma checkURL_after_failures u parsedURL options :
  URL_parse u = Some parsedURL ->
  forall failures attempt script,
    Forall (fun o => is_failure o = true) failures ->
    (forall message rest, script <> Refused message :: rest) ->
    attempt + Z.of_nat (length failures) <= retries options ->
    snd (checkURL u options attempt (failures ++ script))
    = snd (checkURL u options (attempt + Z.of_nat (length failures)) script).
Proof.
  intros Hparse.
  induction failures as [|o failures IH]; intros attempt script Hall Hscript Hlen.
  - cbn [app length]. rewrite Z.add_0_r. reflexivity.
  - inversion Hall as [|? ? Ho Hall']; subst. cbn [length] in Hlen.
    change ((o :: failures) ++ script) with (o :: (failures ++ script)).
    rewrite (checkURL_retry _ _ _ _ _ _ Hparse Ho) by lia.
    rewrite then_identity.
    2:{ intros message Hrej.
        apply checkURL_rejected_iff in Hrej as [[Hnone _]|[_ (rest & Hrest)]];
          [congruence|].
        destruct failures as [|o' failures']; cbn [app] in Hrest.
        - exact (Hscript _ _ Hrest).
        - injection Hrest as -> _. inversion Hall' as [|? ? Ho' _]. discriminate. }
    rewrite (IH (attempt + 1) script Hall' Hscript) by lia.
    replace (attempt + 1 + Z.of_nat (length failures))
      with (attempt + Z.of_nat (length (o :: failures)))
      by (cbn [length]; lia).
    reflexivity.
Qed.

(** X8. Attempts that fail and are retried leave no trace in the
    result: when a response comes after fewer failures than [retries]
    allows, [checkURL] settles exactly as if that response had come at
    the first attempt, so that neither the time of the failed attempts
    nor the backoffs count in [responseTime]. *)
Theorem checkURL_forgets_failed_attempts u parsedURL options failures
    code hdrs body elapsed script :
  URL_parse u = Some parsedURL ->
  Forall (fun o => is_failure o = true) failures ->
  1 + Z.of_nat (length failures) <= retries options ->
  snd (checkURL u options 1 (failures ++ Responded code hdrs body elapsed :: script))
  = snd (checkURL u options 1 (Responded code hdrs body elapsed :: script)).
Proof.
  intros Hparse Hall Hlen.
  rewrite (checkURL_after_failures _ _ _ Hparse _ _ _ Hall) by (discriminate || exact Hlen).
  apply checkURL_response_any_attempt.
Qed.

(** X9. When a redirect is followed and every attempt on its target
    fails, the result has status 0 and the redirect in [redirects], but
    its [error] is null: the message of the failure is not carried over,
    and [printResult] shows no error for it. *)
Theorem checkURL_drops_error_after_redirect u parsedURL target parsedTarget options
    attempt code hdrs body elapsed location failures :
  URL_parse u = Some parsedURL ->
  URL_parse target = Some parsedTarget ->
  followRedirects options = true ->
  1 <= maxRedirects options ->
  is_redirect_status code = true ->
  hdrs !! "location" = Some location ->
  location <> "" ->
  URL_resolve location u = Some target ->
  Forall (fun o => is_failure o = true) failures ->
  failures <> [] ->
  retries options - 1 < Z.of_nat (length failures) ->
  exists r,
    snd (checkURL u options attempt (Responded code hdrs body elapsed :: failures))
    = Resolved r
    /\ status r = 0
    /\ error r = None
    /\ redirects r = [{| from := u; to := target; redirect_status := code |}].
Proof.
  intros Hparse Htarget Hfollow Hmax Hcode Hloc Hne Hres Hall Hnil Hlen.
  rewrite (checkURL_hop _ _ _ _ _ _ _ _ _ _ _
             Hparse Hfollow Hmax Hcode Hloc Hne Hres).
  cbn [snd].
  destruct (checkURL_failures_resolve _ _ _ Htarget _ 1 Hall Hnil Hlen)
    as (rr & Hrr & Hstatus & message & Herror).
  pose proof (checkURL_redirects_observed failures target options 1 rr Hrr) as Hobs.
  rewrite Hrr. cbn [then_]. eexists. split; [reflexivity|].
  cbn [status error redirects]. split; [exact Hstatus|]. split; [reflexivity|].
  destruct (redirects rr) as [|hop hops] eqn:Hred; [reflexivity|].
  exfalso. destruct Hobs as [_ (c & h & b & e & l & Hin & _)]; [discriminate|].
  rewrite List.Forall_forall in Hall. specialize (Hall _ Hin). discriminate.
Qed.

(** X10. [checkURL] never gives up on a redirect loop: when a URL
    redirects to itself, then after any number [n] of such responses it
    has made [n + 1] requests and is still waiting, whatever
    [maxRedirects >= 1] says. *)
Theorem checkURL_follows_redirect_loop u parsedURL options code hdrs body elapsed
    location (n : nat) :
  URL_parse u = Some parsedURL ->
  followRedirects options = true ->
  1 <= maxRedirects options ->
  is_redirect_status code = true ->
  hdrs !! "location" = Some location ->
  location <> "" ->
  URL_resolve location u = Some u ->
  forall attempt,
    snd (checkURL u options attempt (repeat (Responded code hdrs body elapsed) n))
    = Pending
    /\ requested (fst (checkURL u options attempt
                         (repeat (Responded code hdrs body elapsed) n)))
       = repeat u (S n).
Proof.
  intros Hparse Hfollow Hmax Hcode Hloc Hne Hres.
  induction n as [|n IH]; intros attempt.
  - cbn [repeat]. rewrite (checkURL_pending _ _ _ _ Hparse). split; reflexivity.
  - cbn [repeat].
    rewrite (checkURL_hop _ _ _ _ _ _ _ _ _ _ _
               Hparse Hfollow Hmax Hcode Hloc Hne Hres).
    destruct (IH 1) as [Hpending Hreq]. cbn [fst snd].
    rewrite Hpending, requested_cons, Hreq. split; reflexivity.
Qed.

Lemma backoff_total_retry_trace u req (m : nat) : forall attempt,
  backoff_total (retry_trace u req attempt (S m))
  = 500 * Z.of_nat m * (2 * attempt + Z.of_nat m - 1).
Proof.
  induction m as [|m IH]; intros attempt.
  - cbn. lia.
  - change (retry_trace u req attempt (S (S m)))
      with (Request u attempt req :: Backoff (1000 * attempt)
              :: retry_trace u req (attempt + 1) (S m)).
    cbn [backoff_total fold_right]. fold (backoff_total (retry_trace u req (attempt + 1) (S m))).
    rewrite IH. nia.
Qed.

Lemma requested_retry_trace u req (m : nat) : forall attempt,
  requested (retry_trace u req attempt m) = repeat u m.
Proof.
  induction m as [|m IH]; intros attempt; [reflexivity|].
  destruct m as [|m]; [reflexivity|].
  change (retry_trace u req attempt (S (S m)))
    with (Request u attempt req :: Backoff (1000 * attempt)
            :: retry_trace u req (attempt + 1) (S m)).
  rewrite requested_cons.
  change (requested (Backoff (1000 * attempt) :: retry_trace u req (attempt + 1) (S m)))
    with (requested (retry_trace u req (attempt + 1) (S m))).
  rewrite IH. reflexivity.
Qed.

(** X11. A URL whose [n = retries] attempts all fail, those before the
    last in a connection error, is requested [n] times and costs
    [500 * n * (n - 1)] ms of waiting between the attempts, on top of
    the time of the attempts themselves. *)
Theorem checkURL_total_backoff u parsedURL options script last :
  URL_parse u = Some parsedURL ->
  Forall (fun o => is_error o = true) script ->
  is_failure last = true ->
  Z.of_nat (length (script ++ [last])) = retries options ->
  let events := fst (checkURL u options 1 (script ++ [last])) in
  backoff_total events = 500 * retries options * (retries options - 1)
  /\ requested events = repeat u (Z.to_nat (retries options)).
Proof.
  intros Hparse Hall Hlast Hlen.
  rewrite length_app in Hlen. cbn [length] in Hlen.
  cbn zeta.
  rewrite (checkURL_errors_trace u parsedURL options last Hparse Hlast script 1 Hall)
    by lia.
  rewrite backoff_total_retry_trace, requested_retry_trace.
  split; [nia|]. f_equal. lia.
Qed.

(** X12. The headers of a request are the headers given on the command
    line over three defaults: a header given by the user is sent as
    given, also under the name of a default; without one, [User-Agent]
    is [httpcheck/1.0.0], [Accept] is [*/*] and [Connection] is
    [close]; and no other header is sent. *)
Theorem request_headers_override_defaults (parsedURL : ParsedURL) (options : Options) :
  (forall name value,
      headers options !! name = Some value ->
      req_headers (make_requestOptions parsedURL options) !! name = Some value)
  /\ (forall name,
      headers options !! name = None ->
      req_headers (make_requestOptions parsedURL options) !! name
      = default_headers !! name)
  /\ default_headers !! "User-Agent" = Some "httpcheck/1.0.0"
  /\ default_headers !! "Accept" = Some "*/*"
  /\ default_headers !! "Connection" = Some "close"
  /\ (forall name,
      name <> "User-Agent" -> name <> "Accept" -> name <> "Connection" ->
      default_headers !! name = None).
Proof.
  cbn [req_headers make_requestOptions]. fold default_headers.
  split; [|split; [|split; [|split; [|split]]]].
  - intros name value Hname. apply lookup_union_Some_l. exact Hname.
  - intros name Hname. apply lookup_union_r. exact Hname.
  - reflexivity.
  - reflexivity.
  - reflexivity.
  - intros name H1 H2 H3. unfold default_headers.
    rewrite !lookup_insert_ne by congruence. apply lookup_empty.
Qed.

(** ** Further properties of the summary and of the end of main *)

Lemma count_cons (p : CheckResult -> bool) r rs :
  count p (r :: rs) = (if p r then 1 else 0) + count p rs.
Proof. unfold count. cbn [List.filter]. destruct (p r); cbn [length]; lia. Qed.

Lemma count_nonneg (p : CheckResult -> bool) rs : 0 <= count p rs.
Proof. unfold count. lia. Qed.

(** X13. The buckets of the summary do not overlap, and they leave out
    exactly the results whose status is negative or between 1 and 199:
    the total is the sum of the five counts and of the number of those
    results. *)
Theorem summarize_buckets_partition (results : list CheckResult) :
  let s := summarize results in
  total s
  = successful s + redirected s + clientErrors s + serverErrors s + failed s
    + count uncounted results.
Proof.
  cbn zeta. unfold summarize.
  cbn [total successful redirected clientErrors serverErrors failed].
  induction results as [|r rs IH]; [reflexivity|].
  rewrite !count_cons. cbn [length]. rewrite Nat2Z.inj_succ, IH.
  unfold uncounted.
  destruct (Z.leb_spec 200 (status r)), (Z.ltb_spec (status r) 300),
    (Z.leb_spec 300 (status r)), (Z.ltb_spec (status r) 400),
    (Z.leb_spec 400 (status r)), (Z.ltb_spec (status r) 500),
    (Z.leb_spec 500 (status r)), (Z.eqb_spec (status r) 0),
    (Z.ltb_spec (status r) 0), (Z.ltb_spec 0 (status r)),
    (Z.ltb_spec (status r) 200); cbn [andb orb]; lia.
Qed.

(** X14. The results that make the exit code 1 are those of three
    buckets of the summary: failed, client errors and server errors. *)
Theorem exit_failures_are_three_buckets (results : list CheckResult) :
  count counts_as_failure results
  = failed (summarize results) + clientErrors (summarize results)
    + serverErrors (summarize results).
Proof.
  unfold summarize. cbn [failed clientErrors serverErrors].
  induction results as [|r rs IH]; [reflexivity|].
  rewrite !count_cons, IH. unfold counts_as_failure.
  destruct (Z.leb_spec 400 (status r)), (Z.ltb_spec (status r) 500),
    (Z.leb_spec 500 (status r)), (Z.eqb_spec (status r) 0); cbn [andb orb]; lia.
Qed.

Lemma total_time_bounds (lo hi : Z) (results : list CheckResult) :
  Forall (fun r => lo <= responseTime r <= hi) results ->
  Z.of_nat (length results) * lo <= total_time results
  <= Z.of_nat (length results) * hi.
Proof.
  induction 1 as [|r rs Hr _ IH]; [unfold total_time; cbn; lia|].
  unfold total_time in *. cbn [map fold_right length]. rewrite Nat2Z.inj_succ. lia.
Qed.

(** X15. The average of the summary lies between the least and the
    greatest response time: rounding never takes it out of the range of
    the values averaged. *)
Theorem average_within_range (lo hi : Z) (results : list CheckResult) :
  results <> [] ->
  Forall (fun r => lo <= responseTime r <= hi) results ->
  exists q, avgTime (summarize results) = JS.Int q /\ lo <= q <= hi.
Proof.
  intros Hne Hall. unfold summarize. cbn [avgTime].
  rewrite reduce_sum, Z.add_0_l.
  pose proof (total_time_bounds lo hi results Hall) as Hsum.
  assert (Hpos : 0 < Z.of_nat (length results)).
  { destruct results; [congruence|cbn [length]; lia]. }
  destruct (round_div_nearest (total_time results) _ Hpos) as (q & Hq & Hround).
  exists q. split; [exact Hq|]. nia.
Qed.

(** X16. The average is [NaN] exactly when there is no result: an
    empty result set is the one case where the summary prints
    ['NaNms']. *)
Theorem average_is_NaN_iff_no_result (results : list CheckResult) :
  avgTime (summarize results) = JS.NaN <-> results = [].
Proof.
  unfold summarize. cbn [avgTime]. unfold JS.round_div. split.
  - destruct results as [|r rs]; [reflexivity|].
    destruct (Z.eqb_spec (Z.of_nat (length (r :: rs))) 0) as [Hz|Hnz];
      [cbn [length] in Hz; lia|discriminate].
  - intros ->. reflexivity.
Qed.

Lemma count_zero_iff (p : CheckResult -> bool) (results : list CheckResult) :
  count p results = 0 <-> Forall (fun r => p r = false) results.
Proof.
  induction results as [|r rs IH]; [split; [constructor|reflexivity]|].
  rewrite count_cons. pose proof (count_nonneg p rs). split.
  - intros H0. destruct (p r) eqn:Hp; [lia|].
    constructor; [exact Hp|apply IH; lia].
  - intros Hall. inversion Hall as [|? ? Hp Hrs]; subst.
    rewrite Hp. apply IH in Hrs. lia.
Qed.

(** X17. Once [runChecks] has returned, [main] always exits, with code
    0 or 1; the code is 0 exactly when no result has status 0 or a
    status from 400 up and the export, if an output file was asked for,
    did not throw.  An unfollowed redirect or any other status below 400
    counts as a success. *)
Theorem main_finish_exit_code (options : Options) (out : list string)
    (results : list CheckResult) :
  (exit_code (main_finish options out results) = Some 0
   \/ exit_code (main_finish options out results) = Some 1)
  /\ (exit_code (main_finish options out results) = Some 0
      <-> Forall (fun r => counts_as_failure r = false) results
          /\ (JS.str_truthy (output options) = true ->
              forall message,
                exportResults results (format options) (default "" (output options))
                <> ExportThrew message)).
Proof.
  unfold main_finish. fold counts_as_failure.
  pose proof (count_zero_iff counts_as_failure results) as Hzero.
  pose proof (count_nonneg counts_as_failure results) as Hnn.
  destruct (JS.str_truthy (output options)).
  - destruct (exportResults results (format options) (default "" (output options)))
      as [path content log|message] eqn:Hexport.
    + cbn [exit_code]. destruct (Z.ltb_spec 0 (count counts_as_failure results)).
      * split; [right; reflexivity|]. split; [discriminate|].
        intros [Hall _]. apply Hzero in Hall. lia.
      * split; [left; reflexivity|]. split; [|reflexivity].
        intros _. split; [apply Hzero; lia|]. intros _ m. discriminate.
    + cbn [exit_code main_catch]. split; [right; reflexivity|].
      split; [discriminate|]. intros [_ Hno]. exfalso.
      exact (Hno eq_refl message eq_refl).
  - cbn [exit_code]. destruct (Z.ltb_spec 0 (count counts_as_failure results)).
    + split; [right; reflexivity|]. split; [discriminate|].
      intros [Hall _]. apply Hzero in Hall. lia.
    + split; [left; reflexivity|]. split; [|reflexivity].
      intros _. split; [apply Hzero; lia|]. discriminate.
Qed.

(** ** Further properties of runChecks *)

Lemma complete_all_invariant (P : RunState -> Prop) (options : Options) :
  (forall st k st', P st -> complete options k st = inl st' -> P st') ->
  forall ks st st', P st -> complete_all options ks st = inl st' -> P st'.
Proof.
  intros Hcomplete.
  induction ks as [|k ks IH]; intros st st' Hst; cbn [complete_all].
  - intros [= <-]. exact Hst.
  - destruct (complete options k st) as [st1|m] eqn:Hc; [|discriminate].
    apply IH. exact (Hcomplete _ _ _ Hst Hc).
Qed.

Lemma await_race_invariant (P : RunState -> Prop) (w : World) (options : Options) :
  (forall st k st', P st -> complete options k st = inl st' -> P st') ->
  forall n st, P st -> P (fst (await_race w options n st)).
Proof.
  intros Hcomplete n st Hst. unfold await_race.
  destruct (List.filter (is_settled st) (running st)); [|exact Hst].
  destruct (complete_all options (arrivals w n) st) as [st1|m] eqn:Hall; [|exact Hst].
  pose proof (complete_all_invariant P options Hcomplete _ _ _ Hst Hall) as Hst1.
  destruct (List.filter _ (settled st1)); exact Hst1.
Qed.

(** A property of the state that starting checks, completing a check
    and rewriting [running] all keep holds at every point of a run. *)
Lemma runChecks_loop_invariant (P : RunState -> Prop) (w : World) (options : Options) :
  (forall st q r s,
      P st ->
      start_checks w options (queue st) (running st) (started st) = (q, r, s) ->
      P {| results := results st; queue := q; running := r; started := s;
           settled := settled st; console := console st |}) ->
  (forall st k st', P st -> complete options k st = inl st' -> P st') ->
  (forall st r,
      P st ->
      P {| results := results st; queue := queue st; running := r;
           started := started st; settled := settled st; console := console st |}) ->
  forall fuel n st, P st -> P (state_of (runChecks_loop w options fuel n st)).
Proof.
  intros Hstart Hcomplete Hrunning.
  induction fuel as [|fuel IH]; intros n st Hst; cbn [runChecks_loop]; [exact Hst|].
  destruct ((0 <? Z.of_nat (length (queue st))) || (0 <? Z.of_nat (length (running st))));
    [|exact Hst].
  pose proof (Hstart st) as Hstart'.
  destruct (start_checks w options (queue st) (running st) (started st))
    as [[queue1 running1] started1].
  specialize (Hstart' _ _ _ Hst eq_refl).
  destruct (0 <? Z.of_nat (length running1)); [|apply IH; exact Hstart'].
  pose proof (await_race_invariant P w options Hcomplete n _ Hstart') as Hrace.
  destruct (await_race w options n _) as [st2 wake]. cbn [fst] in Hrace.
  destruct wake; cbn [state_of]; try exact Hrace.
  apply IH. apply Hrunning. exact Hrace.
Qed.

(** X18. [runChecks] returns exactly when it is given no URL, and it
    then returns no result: on an empty list the loop is not entered, on
    any other list it is never left. *)
Theorem runChecks_returns_iff_no_url (w : World) (fuel : nat) (urls : list string)
    (options : Options) :
  (exists rs st, runChecks w (S fuel) urls options = Returned rs st) <-> urls = [].
Proof.
  split.
  - intros (rs & st & Hrun).
    destruct urls as [|u urls]; [reflexivity|]. exfalso.
    refine (proj1 (runChecks_loop_goes_on w options (length (u :: urls)) (S fuel) 0
                     (initial_state (u :: urls)) _ _) rs st Hrun).
    + unfold dispatch_inv; cbn. repeat split; [lia|left; reflexivity].
    + left. discriminate.
  - intros ->. exists [], (initial_state []). reflexivity.
Qed.

Lemma start_checks_closed_limit (w : World) (options : Options) (urls : list string) :
  concurrent options <= 0 ->
  start_checks w options urls [] [] = (urls, [], []).
Proof.
  intros Hlimit. destruct urls as [|u urls]; cbn [start_checks]; [reflexivity|].
  cbn [length]. destruct (Z.ltb_spec (Z.of_nat 0) (concurrent options)); [lia|].
  reflexivity.
Qed.

Lemma runChecks_loop_closed_limit (w : World) (options : Options) (urls : list string) :
  concurrent options <= 0 ->
  forall fuel n,
    runChecks_loop w options fuel n (initial_state urls) = Spinning (initial_state urls)
    \/ runChecks_loop w options fuel n (initial_state urls)
       = Returned [] (initial_state urls).
Proof.
  intros Hlimit.
  induction fuel as [|fuel IH]; intros n; cbn [runChecks_loop]; [left; reflexivity|].
  cbn [queue running started initial_state].
  destruct ((0 <? Z.of_nat (length urls)) || (0 <? Z.of_nat (length (@nil PromiseObj))));
    [|right; reflexivity].
  rewrite (start_checks_closed_limit w options urls Hlimit).
  cbn [length Z.of_nat Z.ltb Z.compare]. apply IH.
Qed.

(** X19. With a concurrency limit of zero or less, which a negative
    [--concurrent] gives, [runChecks] starts no check at all: on a
    non-empty list of URLs it turns for ever without a request, a result
    or a line of output. *)
Theorem runChecks_closed_limit_starts_nothing (w : World) (fuel : nat)
    (urls : list string) (options : Options) :
  concurrent options <= 0 ->
  urls <> [] ->
  runChecks w fuel urls options = Spinning (initial_state urls).
Proof.
  intros Hlimit Hne.
  destruct (runChecks_loop_closed_limit w options urls Hlimit fuel 0) as [Hspin|Hret];
    [exact Hspin|].
  exfalso.
  refine (proj1 (runChecks_loop_goes_on w options (length urls) fuel 0
                   (initial_state urls) _ _) [] (initial_state urls) Hret).
  - unfold dispatch_inv; cbn. repeat split; [lia|left; reflexivity].
  - left. exact Hne.
Qed.

(** X20. Under [--quiet], [runChecks] prints nothing, whatever the
    checks come to: the line of a failed check is left out like any
    other. *)
Theorem runChecks_quiet_prints_nothing (w : World) (fuel : nat) (urls : list string)
    (options : Options) :
  quiet options = true ->
  console (state_of (runChecks w fuel urls options)) = [].
Proof.
  intros Hquiet. unfold runChecks.
  apply (runChecks_loop_invariant (fun st => console st = []) w options).
  - intros st q r s Hst _. exact Hst.
  - intros st k st' Hst. unfold complete.
    destruct (bool_decide _); [intros [= <-]; exact Hst|].
    destruct (started st !! k) as [[r|m|m|]|]; intros [= <-]; cbn [console];
      try exact Hst.
    rewrite Hst, Hquiet. reflexivity.
  - intros st r Hst. exact Hst.
  - reflexivity.
Qed.

Lemma start_checks_extends (w : World) (options : Options) : forall q r s q1 r1 s1,
  start_checks w options q r s = (q1, r1, s1) ->
  exists us new,
    q = us ++ q1 /\ s1 = s ++ new
    /\ Forall2 (fun u x => exists script, x = snd (checkURL u options 1 script)) us new.
Proof.
  induction q as [|u q IH]; intros r s q1 r1 s1; cbn [start_checks].
  - intros [= <- <- <-]. exists [], [].
    split; [reflexivity|split; [symmetry; apply app_nil_r|constructor]].
  - destruct (Z.of_nat (length r) <? concurrent options).
    + intros Hrec. apply IH in Hrec as (us & new & Hq & Hs & Hall).
      exists (u :: us), (snd (checkURL u options 1 (net w (length s))) :: new).
      rewrite Hq, Hs, <- app_assoc.
      split; [reflexivity|split; [reflexivity|]].
      constructor; [eexists; reflexivity|exact Hall].
    + intros [= <- <- <-]. exists [], [].
      split; [reflexivity|split; [symmetry; apply app_nil_r|constructor]].
Qed.

Lemma resolved_result_app (s new : list Settlement) (ks : list nat) :
  Forall (fun k => (k < length s)%nat) ks ->
  omap (resolved_result (s ++ new)) ks = omap (resolved_result s) ks.
Proof.
  intros Hks. apply list_omap_ext.
  induction Hks as [|k ks Hk _ IH]; constructor; [|exact IH].
  unfold resolved_result. rewrite lookup_app_l by exact Hk. reflexivity.
Qed.

Lemma results_inv_start (w : World) (options : Options) (urls : list string) st q r s :
  results_inv urls st ->
  start_checks w options (queue st) (running st) (started st) = (q, r, s) ->
  results_inv urls
    {| results := results st; queue := q; running := r; started := s;
       settled := settled st; console := console st |}.
Proof.
  intros (Hres & Hnodup & Hlt & Hqueue & Hstarted) Hstart.
  apply start_checks_extends in Hstart as (us & new & Hq & -> & Hnew).
  rewrite Hq in Hqueue. apply Forall_app in Hqueue as [Hus Hq1].
  unfold results_inv. cbn [results queue started settled].
  split; [rewrite (resolved_result_app _ _ _ Hlt); exact Hres|].
  split; [exact Hnodup|].
  split.
  { eapply Forall_impl; [exact Hlt|]. intros k Hk. cbn beta in *.
    rewrite length_app. lia. }
  split; [exact Hq1|].
  apply Forall_app. split; [exact Hstarted|].
  clear Hq. induction Hnew as [|u x us new (script & ->) _ IH]; [constructor|].
  inversion Hus as [|? ? Hu Hus']; subst.
  constructor; [|apply IH; exact Hus'].
  intros res Hx. rewrite (checkURL_result_url _ _ _ _ _ Hx). exact Hu.
Qed.

Lemma results_inv_complete (options : Options) (urls : list string) st k st' :
  results_inv urls st ->
  complete options k st = inl st' ->
  results_inv urls st'.
Proof.
  intros (Hres & Hnodup & Hlt & Hqueue & Hstarted). unfold complete.
  destruct (bool_decide_reflect (k ∈ settled st)) as [Hin|Hnotin];
    [intros [= <-]; repeat split; assumption|].
  assert (Hsnoc : NoDup (settled st ++ [k])).
  { apply NoDup_app. split; [exact Hnodup|]. split.
    - intros x Hx Hxk. apply list_elem_of_singleton in Hxk. subst. contradiction.
    - apply NoDup_singleton. }
  destruct (started st !! k) as [[r|m|m|]|] eqn:Hk; intros [= <-];
    try (repeat split; assumption);
    unfold results_inv; cbn [results queue started settled];
    pose proof (lookup_lt_Some _ _ _ Hk) as Hklt;
    (split; [|split; [exact Hsnoc|split; [|split; assumption]]]).
  - rewrite omap_app, <- Hres. cbn. unfold resolved_result. rewrite Hk. reflexivity.
  - apply Forall_app. split; [exact Hlt|]. repeat constructor. exact Hklt.
  - rewrite omap_app, <- Hres. cbn. unfold resolved_result. rewrite Hk.
    rewrite app_nil_r. reflexivity.
  - apply Forall_app. split; [exact Hlt|]. repeat constructor. exact Hklt.
Qed.

Lemma length_omap_le {A B : Type} (f : A -> option B) (l : list A) :
  (length (omap f l) <= length l)%nat.
Proof.
  induction l as [|x l IH]; [reflexivity|]. cbn.
  destruct (f x); cbn [length]; lia.
Qed.

Lemma NoDup_below_length (n : nat) (l : list nat) :
  NoDup l -> Forall (fun k => (k < n)%nat) l -> (length l <= n)%nat.
Proof.
  intros Hnodup Hlt.
  assert (Hseq : length (seq 0 n) = n) by apply length_seq.
  apply Nat.le_trans with (length (seq 0 n)); [|rewrite Hseq; reflexivity].
  apply submseteq_length, NoDup_submseteq; [exact Hnodup|].
  intros k Hk. apply elem_of_seq.
  rewrite Forall_forall in Hlt. specialize (Hlt k Hk). lia.
Qed.

(** X21. At every point of a run the results collected are the results
    of checks that were started and have resolved, each check
    contributing at most once and in the order the checks completed;
    every result bears a URL of the list given, and there are never
    more results than checks started. *)
Theorem runChecks_results_come_from_checks (w : World) (fuel : nat)
    (urls : list string) (options : Options) :
  let st := state_of (runChecks w fuel urls options) in
  results st = omap (resolved_result (started st)) (settled st)
  /\ NoDup (settled st)
  /\ Forall (fun r => url r ∈ urls) (results st)
  /\ (length (results st) <= length (started st))%nat.
Proof.
  cbn zeta. unfold runChecks.
  pose proof (runChecks_loop_invariant (results_inv urls) w options
                (fun st q r s => results_inv_start w options urls st q r s)
                (fun st k st' => results_inv_complete options urls st k st')
                (fun st r H => H) fuel 0 (initial_state urls)) as Hinv.
  destruct Hinv as (Hres & Hnodup & Hlt & Hqueue & Hstarted).
  { unfold results_inv; cbn. repeat split; try constructor.
    apply Forall_forall. intros u Hu. exact Hu. }
  change {| results := []; queue := urls; running := []; started := [];
            settled := []; console := [] |} with (initial_state urls).
  set (st := state_of (runChecks_loop w options fuel 0 (initial_state urls))) in *.
  split; [exact Hres|]. split; [exact Hnodup|]. split.
  - rewrite Hres. apply Forall_forall. intros r Hr.
    apply list_elem_of_omap in Hr as (k & _ & Hk).
    unfold resolved_result in Hk.
    destruct (started st !! k) as [[r'|m|m|]|] eqn:Hlook; try discriminate.
    injection Hk as ->.
    rewrite Forall_lookup in Hstarted. exact (Hstarted k _ Hlook r eq_refl).
  - rewrite Hres. etransitivity; [apply length_omap_le|].
    apply NoDup_below_length; assumption.
Qed.

Lemma start_checks_shape (w : World) (options : Options) : forall q r s q1 r1 s1,
  start_checks w options q r s = (q1, r1, s1) ->
  exists us new,
    q = us ++ q1 /\ s1 = s ++ new
    /\ length new = length us
    /\ length r1 = (length r + length us)%nat
    /\ Forall2 (fun u x => exists script, x = snd (checkURL u options 1 script)) us new
    /\ (q1 = [] \/ concurrent options <= Z.of_nat (length r1)).
Proof.
  induction q as [|u q IH]; intros r s q1 r1 s1; cbn [start_checks].
  - intros [= <- <- <-]. exists [], []. cbn [length app].
    repeat split; [symmetry; apply app_nil_r|lia|constructor|left; reflexivity].
  - destruct (Z.ltb_spec (Z.of_nat (length r)) (concurrent options)) as [Hlt|Hge].
    + intros Hrec. apply IH in Hrec as (us & new & Hq & Hs & Hlen & Hr & Hall & Hstop).
      exists (u :: us), (snd (checkURL u options 1 (net w (length s))) :: new).
      rewrite Hq, Hs, <- app_assoc. rewrite length_app in Hr. cbn [length] in *.
      repeat split; [lia|lia| |exact Hstop].
      constructor; [eexists; reflexivity|exact Hall].
    + intros [= <- <- <-]. exists [], []. cbn [length app].
      repeat split; [symmetry; apply app_nil_r|lia|constructor|right; lia].
Qed.

Lemma filter_is_settled_nil (st : RunState) (ps : list PromiseObj) :
  settled st = [] -> List.filter (is_settled st) ps = [].
Proof.
  intros Hnil. induction ps as [|p ps IH]; [reflexivity|].
  cbn [List.filter]. unfold is_settled at 1. rewrite Hnil.
  rewrite bool_decide_eq_false_2 by apply not_elem_of_nil. exact IH.
Qed.

Lemma await_race_first_rejection (w : World) (options : Options) (n k : nat)
    (st : RunState) (message : string) :
  settled st = [] ->
  started st !! k = Some (Rejected message) ->
  arrivals w n = [k] ->
  await_race w options n st
  = ({| results := results st; queue := queue st; running := running st;
        started := started st; settled := [k]; console := console st |},
     RaceRejected message).
Proof.
  intros Hnil Hk Harr. unfold await_race.
  rewrite (filter_is_settled_nil st _ Hnil), Harr.
  cbn [complete_all]. unfold complete. rewrite Hnil.
  rewrite bool_decide_eq_false_2 by apply not_elem_of_nil.
  rewrite Hk. cbn [settled app List.filter].
  rewrite bool_decide_eq_true_2 by apply not_elem_of_nil.
  unfold wake_of. cbn [started]. rewrite Hk. reflexivity.
Qed.

Lemma runChecks_unparsed_url (w : World) (fuel : nat)
    (before : list string) (u : string) (after : list string) (options : Options) :
  URL_parse u = None ->
  Z.of_nat (length before) < concurrent options ->
  arrivals w 0 = [length before] ->
  exists st,
    runChecks w (S fuel) (before ++ u :: after) options = Threw "Invalid URL" st
    /\ results st = [] /\ console st = [].
Proof.
  intros Hparse Hlimit Harr. unfold runChecks. cbn [runChecks_loop].
  cbn [queue running started results settled console].
  replace ((0 <? Z.of_nat (length (before ++ u :: after)))
           || (0 <? Z.of_nat (length (@nil PromiseObj)))) with true
    by (rewrite length_app; cbn [length]; symmetry; apply orb_true_iff; left;
        apply Z.ltb_lt; lia).
  pose proof (start_checks_shape w options (before ++ u :: after) [] []) as Hshape.
  destruct (start_checks w options (before ++ u :: after) [] [])
    as [[queue1 running1] started1].
  destruct (Hshape _ _ _ eq_refl) as (us & new & Hq & -> & Hlen & Hr & Hall & Hstop).
  cbn [length Nat.add app] in *.
  assert (Hlong : (length before < length us)%nat).
  { destruct (Nat.lt_ge_cases (length before) (length us)) as [Hlt|Hge]; [exact Hlt|].
    exfalso. destruct Hstop as [-> | Hfull]; [|lia].
    rewrite app_nil_r in Hq. apply (f_equal length) in Hq.
    rewrite length_app in Hq. cbn [length] in Hq. lia. }
  assert (Hu : us !! length before = Some u).
  { assert (Hlook : (before ++ u :: after) !! length before = Some u)
      by (rewrite lookup_app_r by lia; rewrite Nat.sub_diag; reflexivity).
    rewrite Hq, lookup_app_l in Hlook by exact Hlong. exact Hlook. }
  assert (Hk : new !! length before = Some (Rejected "Invalid URL")).
  { destruct (Forall2_lookup_l _ _ _ _ _ Hall Hu) as (x & Hx & script & ->).
    rewrite Hx, (checkURL_unparsed _ _ _ _ Hparse). reflexivity. }
  replace (0 <? Z.of_nat (length running1)) with true
    by (symmetry; apply Z.ltb_lt; lia).
  rewrite (await_race_first_rejection w options 0 (length before) _ "Invalid URL")
    by (try reflexivity; assumption).
  eexists. split; [reflexivity|]. split; reflexivity.
Qed.

(** X22. A URL that does not parse stops the whole run: when its
    check is among the first started and is the first to settle,
    [runChecks] throws ['Invalid URL'] with no result collected and
    nothing printed, whatever the other URLs are. *)
Theorem runChecks_throws_on_unparsed_url (w : World) (fuel : nat)
    (before : list string) (u : string) (after : list string) (options : Options) :
  URL_parse u = None ->
  Z.of_nat (length before) < concurrent options ->
  arrivals w 0 = [length before] ->
  exists st,
    runChecks w (S fuel) (before ++ u :: after) options = Threw "Invalid URL" st
    /\ results st = [] /\ console st = [].
Proof. apply runChecks_unparsed_url. Qed.

(** X23. The lines of a URL file are not validated: when one of them
    does not parse, and its check is among the first started and the
    first to settle, [main] stops with ['Error: Invalid URL'] and exit
    code 1, having printed only the line that announces the checks. *)
Theorem main_stops_on_unparsed_file_url (w : World) (fuel : nat) (argv : list string)
    (o : Options) (filePath : string) (fileURLs before : list string) (u : string)
    (after : list string) :
  parseArgs argv = Parsed o ->
  file o = Some filePath ->
  filePath <> "" ->
  readURLsFromFile filePath = inl fileURLs ->
  urls o ++ fileURLs = before ++ u :: after ->
  URL_parse u = None ->
  Z.of_nat (length before) < concurrent o ->
  arrivals w 0 = [length before] ->
  main w (S fuel) argv =
    Ran {| stdout :=
             if quiet o then []
             else [COLORS.cyan +:+ "Checking "
                     +:+ JS.num_to_string (Z.of_nat (length (before ++ u :: after)))
                     +:+ " URL(s)..." +:+ COLORS.reset +:+ String JS.newline ""];
           stderr := [COLORS.red +:+ "Error: " +:+ "Invalid URL" +:+ COLORS.reset];
           saved := None;
           exit_code := Some 1 |}.
Proof.
  intros Hparse Hfile Hne Hread Hurls Hu Hlimit Harr.
  unfold main. rewrite Hparse, Hfile.
  destruct filePath as [|c filePath']; [congruence|].
  cbn [JS.str_truthy from_option id]. rewrite Hread, Hurls.
  replace (Z.of_nat (length (before ++ u :: after)) =? 0) with false
    by (rewrite length_app; cbn [length]; symmetry; apply Z.eqb_neq; lia).
  destruct (runChecks_unparsed_url w fuel before u after o Hu Hlimit Harr)
    as (st & -> & _ & Hconsole).
  unfold main_catch. rewrite Hconsole, app_nil_r. reflexivity.
Qed.

Lemma checkURL_closed_ceiling : forall script u options attempt r,
  maxRedirects options < 1 ->
  snd (checkURL u options attempt script) = Resolved r ->
  redirects r = [].
Proof.
  induction script as [|o script IH]; intros u options attempt r Hmax.
  - cbn [checkURL]. destruct (URL_parse u); discriminate.
  - destruct (URL_parse u) as [parsedURL|] eqn:Hparse;
      [|rewrite checkURL_unparsed by exact Hparse; discriminate].
    assert (Hfailed : is_failure o = true ->
              snd (checkURL u options attempt (o :: script)) = Resolved r ->
              redirects r = []).
    { intros Ho. rewrite (checkURL_failure_settles _ _ _ _ _ _ Hparse Ho).
      destruct (attempt <? retries options); [|intros [= <-]; reflexivity].
      specialize (IH u options (attempt + 1)).
      destruct (snd (checkURL u options (attempt + 1) script)) as [rr|m|m|];
        cbn [then_] in *; try discriminate.
      intros [= <-]. exact (IH rr Hmax eq_refl). }
    destruct o as [code hdrs body elapsed|message elapsed| |message];
      [|exact (Hfailed eq_refl)|exact (Hfailed eq_refl)
       |cbn [checkURL]; rewrite Hparse; discriminate].
    clear Hfailed. cbn [checkURL]. rewrite Hparse.
    rewrite redirectCount_is_one.
    replace (1 <=? maxRedirects options) with false
      by (symmetry; apply Z.leb_gt; exact Hmax).
    destruct (followRedirects options && _ && _); intros [= <-]; reflexivity.
Qed.

(** X27. A redirect ceiling below 1, which a negative
    [--max-redirects] gives, turns the following of redirects off: no
    result has a redirect, and a redirect response is returned as it is,
    also when [followRedirects] is true. *)
Theorem checkURL_ceiling_below_one_follows_nothing (options : Options) :
  maxRedirects options < 1 ->
  (forall script u attempt r,
      snd (checkURL u options attempt script) = Resolved r -> redirects r = [])
  /\ (forall u parsedURL attempt code hdrs body elapsed script,
      URL_parse u = Some parsedURL ->
      snd (checkURL u options attempt (Responded code hdrs body elapsed :: script))
      = Resolved {| url := u; status := code;
                    statusText := default "Unknown" (STATUS_CODES code);
                    responseTime := elapsed;
                    size := Z.of_nat (String.length body);
                    result_headers := hdrs; redirects := []; error := None |}).
Proof.
  intros Hmax. split.
  - intros script u attempt r. apply checkURL_closed_ceiling. exact Hmax.
  - intros u parsedURL attempt code hdrs body elapsed script Hparse.
    rewrite (checkURL_plain _ _ _ _ _ _ _ _ _ Hparse); [reflexivity|].
    right. exact Hmax.
Qed.

End Httpcheck.

(** ** The program on concrete inputs *)

(** C1: ten URLs under a limit of three.  After fifty turns of the loop
    the run has not returned, three checks at most were started and the
    other URLs are still in the queue. *)
Lemma runChecks_never_returns_witness :
  (forall rs st,
      runChecks SimpleURL.parse SimpleURL.resolve prompt_world 50 ten_urls limit_three
      <> Returned rs st)
  /\ (let st := state_of (runChecks SimpleURL.parse SimpleURL.resolve prompt_world 50
                            ten_urls limit_three) in
      Z.of_nat (length (started st)) <= 3
      /\ (length (queue st) + length (started st))%nat = 10%nat).
Proof.
  apply (runChecks_never_returns SimpleURL.parse SimpleURL.resolve prompt_world 50
           ten_urls limit_three).
  discriminate.
Defined.

(** C2: under [maxRedirects = 1] a chain of two redirects is followed
    to its end: three requests are made and the result is the 200 of the
    third URL with both redirects listed, where the ceiling asks for the
    302 of the second URL after one hop. *)
Theorem checkURL_follows_past_the_ceiling :
  let run := checkURL SimpleURL.parse SimpleURL.resolve
               "http://a.example/" ceiling_one 1 two_redirects in
  maxRedirects ceiling_one = 1
  /\ requested (fst run)
     = ["http://a.example/"; "http://b.example/"; "http://c.example/"]
  /\ snd run
     = Resolved {| url := "http://a.example/"; status := 200; statusText := "OK";
                   responseTime := 23; size := 5; result_headers := ∅;
                   redirects :=
                     [ {| from := "http://a.example/"; to := "http://b.example/";
                          redirect_status := 302 |};
                       {| from := "http://b.example/"; to := "http://c.example/";
                          redirect_status := 302 |} ];
                   error := None |}.
Proof. cbn zeta. repeat split; vm_compute; reflexivity. Qed.

(** C3: a line of a URL file that is no URL, the timeout of
    [--timeout -5], which the http client refuses, and a connection that
    is refused. *)
Lemma checkURL_rejects_unparsed_or_refused_witness :
  checkURL SimpleURL.parse SimpleURL.resolve "https://not a url" default_options 1
    [Failed "connect ECONNREFUSED" 3]
  = ([], Rejected "Invalid URL")
  /\ parseArgs SimpleURL.parse ["--timeout"; "-5"]
     = Parsed (set_timeout (-5) default_options)
  /\ snd (checkURL SimpleURL.parse SimpleURL.resolve "http://a.example/"
            (set_timeout (-5) default_options) 1 [Refused timeout_refusal])
     = Rejected timeout_refusal
  /\ exists r,
       snd (checkURL SimpleURL.parse SimpleURL.resolve "http://a.example/"
              default_options 1 [Failed "connect ECONNREFUSED" 3]) = Resolved r
       /\ status r = 0 /\ exists message, error r = Some message.
Proof.
  split; [|split; [vm_compute; reflexivity|split]].
  - apply (proj1 (proj2 (checkURL_rejects_unparsed_or_refused
                           SimpleURL.parse SimpleURL.resolve "https://not a url"
                           default_options 1 [Failed "connect ECONNREFUSED" 3]))).
    reflexivity.
  - apply (proj1 (checkURL_rejects_unparsed_or_refused
                    SimpleURL.parse SimpleURL.resolve "http://a.example/"
                    (set_timeout (-5) default_options) 1 [Refused timeout_refusal])).
    right. split; [discriminate|]. exists []. reflexivity.
  - apply (proj2 (proj2 (checkURL_rejects_unparsed_or_refused
                           SimpleURL.parse SimpleURL.resolve "http://a.example/"
                           default_options 1 [Failed "connect ECONNREFUSED" 3]))).
    + discriminate.
    + repeat constructor.
    + discriminate.
    + vm_compute. reflexivity.
Defined.

(** C4: three attempts that all time out make seven requests behind
    six timers, where three attempts that end in connection errors and a
    timeout make three requests behind two. *)
Lemma checkURL_timeout_doubles_retries_witness :
  (let run := checkURL SimpleURL.parse SimpleURL.resolve "http://a.example/"
                three_attempts 1 ([TimedOut; TimedOut] ++ [TimedOut]) in
   snd run
   = Resolved {| url := "http://a.example/"; status := 0; statusText := "Timeout";
                 responseTime := 10000; size := 0; result_headers := ∅;
                 redirects := []; error := Some "Request timeout" |}
   /\ (3 < length (requested (fst run)))%nat
   /\ requested (fst run) = repeat "http://a.example/" 7
   /\ backoff_total (fst run) = 10000)
  /\ fst (checkURL SimpleURL.parse SimpleURL.resolve "http://a.example/"
            three_attempts 1
            ([Failed "connect ECONNREFUSED" 4; Failed "read ECONNRESET" 9]
             ++ [TimedOut]))
     = retry_trace "http://a.example/" (request_of a_example three_attempts) 1 3.
Proof.
  split.
  - destruct (checkURL_timeout_doubles_retries SimpleURL.parse SimpleURL.resolve
                "http://a.example/" a_example three_attempts
                [TimedOut; TimedOut] TimedOut)
      as (Hresult & _ & Hmore & Hall);
      [reflexivity|repeat constructor|reflexivity|].
    cbn zeta. split; [exact Hresult|]. split.
    + apply Hmore. left. reflexivity.
    + apply Hall. repeat constructor.
  - apply (checkURL_timeout_doubles_retries SimpleURL.parse SimpleURL.resolve
             "http://a.example/" a_example three_attempts
             [Failed "connect ECONNREFUSED" 4; Failed "read ECONNRESET" 9] TimedOut);
      [reflexivity|repeat constructor|reflexivity|repeat constructor].
Defined.

(** C5: two redirects followed from [http://a.example/], then a 404,
    and the same two redirects, then a connection that is refused. *)
Lemma checkURL_redirect_chain_witness :
  snd (checkURL SimpleURL.parse SimpleURL.resolve "http://a.example/"
         default_options 1
         ([ Responded 302 {[ "location" := "http://b.example/" ]} "" 5;
            Responded 302 {[ "location" := "http://c.example/" ]} "" 7 ]
          ++ Responded 404 {[ "server" := "c" ]} "gone" 11 :: []))
  = Resolved {| url := "http://a.example/"; status := 404;
                statusText := default "Unknown" (STATUS_CODES 404);
                responseTime := (5 + (7 + 0)) + 11;
                size := Z.of_nat (String.length "gone");
                result_headers := {[ "server" := "c" ]};
                redirects :=
                  [ {| from := "http://a.example/"; to := "http://b.example/";
                       redirect_status := 302 |};
                    {| from := "http://b.example/"; to := "http://c.example/";
                       redirect_status := 302 |} ];
                error := None |}
  /\ snd (checkURL SimpleURL.parse SimpleURL.resolve "http://a.example/"
            default_options 1
            ([ Responded 302 {[ "location" := "http://b.example/" ]} "" 5;
               Responded 302 {[ "location" := "http://c.example/" ]} "" 7 ]
             ++ Failed "connect ECONNREFUSED" 3 :: []))
     = Resolved {| url := "http://a.example/"; status := 0;
                   statusText := "Error";
                   responseTime := (5 + (7 + 0)) + 3;
                   size := 0;
                   result_headers := ∅;
                   redirects :=
                     [ {| from := "http://a.example/"; to := "http://b.example/";
                          redirect_status := 302 |};
                       {| from := "http://b.example/"; to := "http://c.example/";
                          redirect_status := 302 |} ];
                   error := None |}.
Proof.
  destruct (checkURL_redirect_chain SimpleURL.parse SimpleURL.resolve default_options
              "http://a.example/" 1
              [ Responded 302 {[ "location" := "http://b.example/" ]} "" 5;
                Responded 302 {[ "location" := "http://c.example/" ]} "" 7 ]
              [ {| from := "http://a.example/"; to := "http://b.example/";
                   redirect_status := 302 |};
                {| from := "http://b.example/"; to := "http://c.example/";
                   redirect_status := 302 |} ]
              (5 + (7 + 0)) "http://c.example/" 1
              {| protocol := "http:"; hostname := "c.example"; port := "";
                 pathname := "/"; search := "" |}
              []) as [Hresponse Hfailure].
  - reflexivity.
  - discriminate.
  - apply (chain_hop SimpleURL.parse SimpleURL.resolve default_options
             "http://a.example/" a_example
             1 302 {[ "location" := "http://b.example/" ]} "" 5
             "http://b.example/" "http://b.example/");
      [reflexivity|reflexivity|vm_compute; reflexivity|discriminate|reflexivity|].
    apply (chain_hop SimpleURL.parse SimpleURL.resolve default_options
             "http://b.example/" b_example
             1 302 {[ "location" := "http://c.example/" ]} "" 7
             "http://c.example/" "http://c.example/");
      [reflexivity|reflexivity|vm_compute; reflexivity|discriminate|reflexivity|].
    apply chain_end.
  - reflexivity.
  - split.
    + apply Hresponse. reflexivity.
    + apply (Hfailure (Failed "connect ECONNREFUSED" 3)); [reflexivity|].
      vm_compute. discriminate.
Defined.

(** C6: a 302 with [followRedirects = false], and the redirects of the
    chain above. *)
Lemma checkURL_redirects_empty_unless_followed_witness :
  snd (checkURL SimpleURL.parse SimpleURL.resolve "http://a.example/"
         (set_followRedirects false default_options) 1
         [Responded 302 {[ "location" := "http://b.example/" ]} "moved" 5])
  = Resolved {| url := "http://a.example/"; status := 302; statusText := "Found";
                responseTime := 5; size := 5;
                result_headers := {[ "location" := "http://b.example/" ]};
                redirects := []; error := None |}
  /\ (followRedirects ceiling_one = true /\ redirect_observed two_redirects).
Proof.
  split.
  - apply (proj2 (checkURL_redirects_empty_unless_followed
                    SimpleURL.parse SimpleURL.resolve)
             "http://a.example/"
             {| protocol := "http:"; hostname := "a.example"; port := "";
                pathname := "/"; search := "" |});
      reflexivity.
  - apply (proj1 (checkURL_redirects_empty_unless_followed
                    SimpleURL.parse SimpleURL.resolve)
             two_redirects "http://a.example/" ceiling_one 1
             {| url := "http://a.example/"; status := 200; statusText := "OK";
                responseTime := 23; size := 5; result_headers := ∅;
                redirects :=
                  [ {| from := "http://a.example/"; to := "http://b.example/";
                       redirect_status := 302 |};
                    {| from := "http://b.example/"; to := "http://c.example/";
                       redirect_status := 302 |} ];
                error := None |}).
    + vm_compute. reflexivity.
    + discriminate.
Defined.

(** C7: a status that is no 5xx is counted as a server error, and the
    average of the response times 0 and 1 is reported as 1. *)
Lemma summarize_not_5xx_nor_exact_mean :
  let results := [result_of 999 0 None; result_of 200 1 None] in
  serverErrors (summarize results) = 1
  /\ count (fun r => in_class ServerError (status r)) results = 0
  /\ avgTime (summarize results) = JS.Int 1
  /\ (forall q, avgTime (summarize results) = JS.Int q ->
      q * total (summarize results) <> total_time results).
Proof.
  cbn zeta. repeat split; try (vm_compute; reflexivity).
  intros q Hq. vm_compute in Hq. injection Hq as <-. vm_compute. discriminate.
Qed.

(** C7: the statuses 200, 200, 404 and 0, with response times 10, 20,
    30 and 41. *)
Lemma summarize_counts_and_rounded_mean_witness :
  (let s := summarize mixed_results in
   total s = Z.of_nat (length mixed_results)
   /\ successful s = count (fun r => in_class Success (status r)) mixed_results
   /\ redirected s = count (fun r => in_class Redirection (status r)) mixed_results
   /\ clientErrors s = count (fun r => in_class ClientError (status r)) mixed_results
   /\ serverErrors s = count (fun r => 500 <=? status r) mixed_results
   /\ failed s = count (fun r => in_class NoResponse (status r)) mixed_results
   /\ exists q,
        avgTime s = JS.Int q
        /\ 2 * total s * q <= 2 * total_time mixed_results + total s
           < 2 * total s * (q + 1))
  /\ summarize mixed_results
     = {| total := 4; successful := 2; redirected := 0; clientErrors := 1;
          serverErrors := 0; failed := 1; avgTime := JS.Int 25 |}.
Proof.
  split.
  - apply (summarize_counts_and_rounded_mean mixed_results). discriminate.
  - vm_compute. reflexivity.
Defined.

(** C8: the export of an error with a comma reads back as it was; that
    of an error with a double quote does not read back at all; and that
    of an error with a double quote next to a comma reads back with a
    field too many. *)
Theorem csv_export_does_not_escape_quotes :
  export_content no_json [comma_error] "csv"
    = inl (csv_header +:+ csv_row comma_error)
  /\ CSV.parse (csv_header +:+ csv_row comma_error)
     = Some [csv_header_fields; csv_fields comma_error]
  /\ export_content no_json [quote_error] "csv"
     = inl (csv_header +:+ csv_row quote_error)
  /\ CSV.parse (csv_header +:+ csv_row quote_error) = None
  /\ CSV.parse (csv_header +:+ csv_row quote_comma_error)
     = Some [csv_header_fields;
             ["http://d.example/"; "0"; "Error"; "41"; "0"; "a"; "b"]]
  /\ csv_fields quote_comma_error
     = ["http://d.example/"; "0"; "Error"; "41"; "0";
        "a" +:+ String JS.dquote ("," +:+ String JS.dquote "b")].
Proof. repeat split; vm_compute; reflexivity. Qed.

(** C9: each numeric flag given 0, or no number. *)
Lemma parseArgs_zero_or_non_numeric_is_default_witness :
  parseArgs SimpleURL.parse ["--timeout"; "0"] = Parsed (set_timeout 10000 default_options)
  /\ parseArgs SimpleURL.parse ["--retries"; "0"] = Parsed (set_retries 1 default_options)
  /\ parseArgs SimpleURL.parse ["--max-redirects"; "0"]
     = Parsed (set_maxRedirects 10 default_options)
  /\ parseArgs SimpleURL.parse ["--concurrent"; "0"]
     = Parsed (set_concurrent 5 default_options)
  /\ parseArgs SimpleURL.parse ["-t"; "soon"] = Parsed (set_timeout 10000 default_options).
Proof.
  destruct (proj1 (parseArgs_zero_or_non_numeric_is_default SimpleURL.parse)
              default_options "0" [] (or_intror eq_refl)) as (Ht & Hr & Hm & Hc).
  destruct (proj1 (parseArgs_zero_or_non_numeric_is_default SimpleURL.parse)
              default_options "soon" [] (or_introl eq_refl)) as (Ht' & _).
  unfold parseArgs.
  rewrite (Ht "--timeout" (or_introl eq_refl)), (Hr "--retries" (or_introl eq_refl)),
    Hm, (Hc "--concurrent" (or_introl eq_refl)), (Ht' "-t" (or_intror eq_refl)).
  repeat split.
Defined.

(** X26: an output file with the default format, for the results of
    statuses 200, 200, 404 and 0. *)
Lemma export_table_throws_after_summary_witness :
  main_finish no_json write_ok (set_output (Some "results.txt") default_options)
    [] mixed_results
  = {| stdout := [] ++ printSummary mixed_results;
       stderr := [COLORS.red +:+ "Error: Unknown format: table" +:+ COLORS.reset];
       saved := None;
       exit_code := Some 1 |}.
Proof.
  apply (proj2 (proj2 (export_table_throws_after_summary no_json write_ok))
           (set_output (Some "results.txt") default_options) [] mixed_results
           "results.txt").
  - reflexivity.
  - discriminate.
  - reflexivity.
Defined.

(** The run on one URL with an output file, once its check has
    completed, turns in place. *)
Lemma parse_export_argv : parseArgs SimpleURL.parse export_argv = Parsed export_options.
Proof. vm_compute. reflexivity. Qed.

Lemma spinning_state_step (fuel n : nat) :
  runChecks_loop SimpleURL.parse SimpleURL.resolve prompt_world export_options
    (S fuel) n spinning_state
  = runChecks_loop SimpleURL.parse SimpleURL.resolve prompt_world export_options
      fuel (S n) spinning_state.
Proof. reflexivity. Qed.

Lemma spinning_state_forever (fuel n : nat) :
  runChecks_loop SimpleURL.parse SimpleURL.resolve prompt_world export_options
    fuel n spinning_state
  = Spinning spinning_state.
Proof.
  revert n. induction fuel as [|fuel IH]; intros n; [reflexivity|].
  rewrite spinning_state_step. apply IH.
Qed.

Lemma runChecks_export_spins (fuel : nat) :
  runChecks SimpleURL.parse SimpleURL.resolve prompt_world (S fuel)
    ["http://a.example/"] export_options
  = Spinning spinning_state.
Proof.
  change (runChecks SimpleURL.parse SimpleURL.resolve prompt_world (S fuel)
            ["http://a.example/"] export_options)
    with (runChecks_loop SimpleURL.parse SimpleURL.resolve prompt_world export_options
            fuel 1 spinning_state).
  apply spinning_state_forever.
Qed.

(** C10: one URL, [--output results.txt] and the default format.
    However long the program runs it has printed the result of the
    check and nothing more: no summary, no error on the standard error,
    no exit code, no file.  [main] never reaches [exportResults], where
    the format ['table'] would have thrown. *)
Theorem main_spins_before_export (fuel : nat) :
  main SimpleURL.parse SimpleURL.resolve no_json write_ok (fun _ => None)
    prompt_world (S fuel) export_argv
  = Ran {| stdout :=
             [COLORS.cyan +:+ "Checking 1 URL(s)..." +:+ COLORS.reset
                +:+ String JS.newline ""]
             ++ printResult answered export_options;
           stderr := [];
           saved := None;
           exit_code := None |}.
Proof.
  unfold main. rewrite parse_export_argv.
  cbv beta iota zeta delta
    [JS.str_truthy file export_options set_output set_urls default_options urls].
  rewrite runChecks_export_spins. reflexivity.
Qed.

(** X1: two URLs among flags, a string that is no URL and a value that
    looks like a URL but belongs to a flag. *)
Lemma parseArgs_collects_valid_urls_witness :
  sublist ["http://a.example/"; "http://b.example/"]
    ["http://a.example/"; "-t"; "500"; "nonsense"; "--output";
     "http://c.example/"; "http://b.example/"]
  /\ Forall (fun u => isValidURL SimpleURL.parse u = true
                      /\ JS.startsWith u "-" = false)
       ["http://a.example/"; "http://b.example/"].
Proof.
  apply (parseArgs_collects_valid_urls SimpleURL.parse
           ["http://a.example/"; "-t"; "500"; "nonsense"; "--output";
            "http://c.example/"; "http://b.example/"]
           (set_output (Some "http://c.example/")
              (set_timeout 500
                 (set_urls ["http://a.example/"; "http://b.example/"]
                    default_options)))).
  vm_compute. reflexivity.
Defined.

(** X2: a method given in lower case. *)
Lemma parseArgs_method_is_upper_case_witness :
  JS.toUpperCase (method (set_method "POST" default_options))
  = method (set_method "POST" default_options).
Proof.
  apply (parseArgs_method_is_upper_case SimpleURL.parse ["-m"; "post"]
           (set_method "POST" default_options)).
  vm_compute. reflexivity.
Defined.

(** X3: an Authorization header, whose value holds a colon, a header
    named [__proto__] and an argument without a colon. *)
Lemma add_header_cuts_at_first_colon_witness :
  headers (add_header (Some ("Authorization" +:+ String ":" " Basic a:b"))
             default_options) !! JS.trim "Authorization"
  = Some (JS.trim " Basic a:b")
  /\ headers (add_header (Some ("__proto__" +:+ String ":" " x")) default_options)
     = headers default_options
  /\ add_header (Some "no colon here") default_options = default_options.
Proof.
  destruct (add_header_cuts_at_first_colon default_options) as (Hcut & Hproto & Hnone).
  split; [|split].
  - apply (Hcut "Authorization" " Basic a:b"); [reflexivity|discriminate].
  - apply (Hproto "__proto__" " x"); reflexivity.
  - apply Hnone. reflexivity.
Defined.

(** X5: a file with a comment, a bare host, a blank line and a URL. *)
Lemma readURLsFromFile_gives_http_urls_witness :
  (exists us,
      readURLsFromFile (one_file "urls.txt" urls_txt) "urls.txt" = inl us
      /\ us = ["https://a.example/x"; "http://b.example/"]
      /\ (length us <= 5)%nat
      /\ Forall (fun u => has_http_scheme u = true) us
      /\ In "https://a.example/x" us)
  /\ readURLsFromFile (one_file "urls.txt" urls_txt) "other.txt"
     = inr "File not found: other.txt".
Proof.
  pose proof (readURLsFromFile_gives_http_urls (one_file "urls.txt" urls_txt)
                "urls.txt") as Hfile.
  pose proof (readURLsFromFile_gives_http_urls (one_file "urls.txt" urls_txt)
                "other.txt") as Hmissing.
  split; [|exact Hmissing].
  change (one_file "urls.txt" urls_txt "urls.txt") with (Some urls_txt) in Hfile.
  destruct Hfile as (us & Hus & Hlen & Hscheme & Hin).
  exists us. split; [exact Hus|].
  split; [vm_compute in Hus; injection Hus as <-; reflexivity|].
  split; [exact Hlen|]. split; [exact Hscheme|].
  apply Hin. exists "  a.example/x ".
  split; [vm_compute; tauto|].
  split; [vm_compute; discriminate|].
  split; vm_compute; reflexivity.
Defined.

(** X6: a URL on the command line and a file that does not exist. *)
Lemma main_stops_on_missing_file_witness :
  main SimpleURL.parse SimpleURL.resolve no_json write_ok
    (one_file "urls.txt" urls_txt) prompt_world 50
    ["http://a.example/"; "--file"; "missing.txt"]
  = Ran {| stdout := [];
           stderr := [COLORS.red +:+ "Error: " +:+ ("File not found: " +:+ "missing.txt")
                        +:+ COLORS.reset];
           saved := None;
           exit_code := Some 1 |}.
Proof.
  apply (main_stops_on_missing_file SimpleURL.parse SimpleURL.resolve no_json write_ok
           (one_file "urls.txt" urls_txt) prompt_world 50
           ["http://a.example/"; "--file"; "missing.txt"]
           (set_file (Some "missing.txt")
              (set_urls ["http://a.example/"] default_options))
           "missing.txt").
  - vm_compute. reflexivity.
  - reflexivity.
  - discriminate.
  - reflexivity.
Defined.

(** X7: a string that is no URL, and a file of comments. *)
Lemma main_stops_without_urls_witness :
  main SimpleURL.parse SimpleURL.resolve no_json write_ok
    (one_file "urls.txt" comments_txt) prompt_world 50
    ["nonsense"; "--file"; "urls.txt"]
  = Ran {| stdout := [];
           stderr := [COLORS.red +:+ "Error: No URLs provided" +:+ COLORS.reset;
                      "Use --help for usage information"];
           saved := None;
           exit_code := Some 1 |}.
Proof.
  apply (main_stops_without_urls SimpleURL.parse SimpleURL.resolve no_json write_ok
           (one_file "urls.txt" comments_txt) prompt_world 50
           ["nonsense"; "--file"; "urls.txt"]
           (set_file (Some "urls.txt") default_options)).
  - vm_compute. reflexivity.
  - reflexivity.
  - right. vm_compute. reflexivity.
Defined.

(** X8: two failed attempts out of three, then a 200. *)
Lemma checkURL_forgets_failed_attempts_witness :
  snd (checkURL SimpleURL.parse SimpleURL.resolve "http://a.example/" three_attempts 1
         ([Failed "connect ECONNREFUSED" 4; TimedOut]
          ++ Responded 200 ∅ "hello" 11 :: []))
  = snd (checkURL SimpleURL.parse SimpleURL.resolve "http://a.example/" three_attempts 1
           (Responded 200 ∅ "hello" 11 :: [])).
Proof.
  apply (checkURL_forgets_failed_attempts SimpleURL.parse SimpleURL.resolve
           "http://a.example/" a_example three_attempts
           [Failed "connect ECONNREFUSED" 4; TimedOut]).
  - reflexivity.
  - repeat constructor.
  - vm_compute. discriminate.
Defined.

(** X9: a redirect to a host that refuses the connection. *)
Lemma checkURL_drops_error_after_redirect_witness :
  exists r,
    snd (checkURL SimpleURL.parse SimpleURL.resolve "http://a.example/"
           default_options 1
           (Responded 301 {[ "location" := "http://b.example/" ]} "" 5
              :: [Failed "connect ECONNREFUSED" 3]))
    = Resolved r
    /\ status r = 0
    /\ error r = None
    /\ redirects r = [{| from := "http://a.example/"; to := "http://b.example/";
                         redirect_status := 301 |}].
Proof.
  apply (checkURL_drops_error_after_redirect SimpleURL.parse SimpleURL.resolve
           "http://a.example/" a_example "http://b.example/" b_example
           default_options 1 301 {[ "location" := "http://b.example/" ]} "" 5
           "http://b.example/" [Failed "connect ECONNREFUSED" 3]).
  - reflexivity.
  - reflexivity.
  - reflexivity.
  - vm_compute. discriminate.
  - reflexivity.
  - vm_compute. reflexivity.
  - discriminate.
  - reflexivity.
  - repeat constructor.
  - discriminate.
  - vm_compute. reflexivity.
Defined.

(** X10: a URL that redirects to itself, seven times over, under the
    default ceiling of ten and under a ceiling of one. *)
Lemma checkURL_follows_redirect_loop_witness :
  snd (checkURL SimpleURL.parse SimpleURL.resolve "http://a.example/" ceiling_one 1
         (repeat (Responded 302 {[ "location" := "/" ]} "" 5) 7))
  = Pending
  /\ requested (fst (checkURL SimpleURL.parse SimpleURL.resolve "http://a.example/"
                       ceiling_one 1
                       (repeat (Responded 302 {[ "location" := "/" ]} "" 5) 7)))
     = repeat "http://a.example/" 8.
Proof.
  apply (checkURL_follows_redirect_loop SimpleURL.parse SimpleURL.resolve
           "http://a.example/" a_example ceiling_one 302
           {[ "location" := "/" ]} "" 5 "/" 7).
  - reflexivity.
  - reflexivity.
  - vm_compute. discriminate.
  - reflexivity.
  - vm_compute. reflexivity.
  - discriminate.
  - reflexivity.
Defined.

(** X11: three attempts: one second, then two seconds of waiting. *)
Lemma checkURL_total_backoff_witness :
  let events :=
    fst (checkURL SimpleURL.parse SimpleURL.resolve "http://a.example/"
           three_attempts 1
           ([Failed "connect ECONNREFUSED" 4; Failed "read ECONNRESET" 9]
            ++ [TimedOut])) in
  backoff_total events = 500 * retries three_attempts * (retries three_attempts - 1)
  /\ requested events = repeat "http://a.example/" (Z.to_nat (retries three_attempts)).
Proof.
  apply (checkURL_total_backoff SimpleURL.parse SimpleURL.resolve
           "http://a.example/" a_example three_attempts
           [Failed "connect ECONNREFUSED" 4; Failed "read ECONNRESET" 9]
           TimedOut).
  - reflexivity.
  - repeat constructor.
  - reflexivity.
  - reflexivity.
Defined.

(** X12: a user agent of the user's own. *)
Lemma request_headers_override_defaults_witness :
  req_headers (make_requestOptions a_example
                 (set_headers {[ "User-Agent" := "probe/2" ]} default_options))
    !! "User-Agent" = Some "probe/2"
  /\ req_headers (make_requestOptions a_example
                    (set_headers {[ "User-Agent" := "probe/2" ]} default_options))
       !! "Connection" = default_headers !! "Connection".
Proof.
  destruct (request_headers_override_defaults a_example
              (set_headers {[ "User-Agent" := "probe/2" ]} default_options))
    as (Hgiven & Hdefault & _).
  split.
  - apply Hgiven. vm_compute. reflexivity.
  - apply Hdefault. vm_compute. reflexivity.
Defined.

(** X15: the response times 10, 20, 30 and 41 average to a value
    between 10 and 41. *)
Lemma average_within_range_witness :
  exists q, avgTime (summarize mixed_results) = JS.Int q /\ 10 <= q <= 41.
Proof.
  apply (average_within_range 10 41 mixed_results).
  - discriminate.
  - repeat constructor; vm_compute; discriminate.
Defined.

(** X17: the statuses 200 and 302 with no output file, and the statuses
    200, 200, 404 and 0. *)
Lemma main_finish_exit_code_witness :
  exit_code (main_finish no_json write_ok default_options []
               [result_of 200 10 None; result_of 302 20 None]) = Some 0
  /\ exit_code (main_finish no_json write_ok default_options [] mixed_results)
     <> Some 0.
Proof.
  split.
  - apply (main_finish_exit_code no_json write_ok default_options []
             [result_of 200 10 None; result_of 302 20 None]).
    split; [repeat constructor|discriminate].
  - intros Hzero.
    apply (main_finish_exit_code no_json write_ok default_options [] mixed_results)
      in Hzero as [Hall _].
    inversion Hall as [|? ? _ Hall1]; subst.
    inversion Hall1 as [|? ? _ Hall2]; subst.
    inversion Hall2 as [|? ? H404 _]; subst.
    vm_compute in H404. discriminate.
Defined.

(** X18: one URL, and none. *)
Lemma runChecks_returns_iff_no_url_witness :
  (exists rs st,
      runChecks SimpleURL.parse SimpleURL.resolve prompt_world 1 [] default_options
      = Returned rs st)
  /\ ~ (exists rs st,
      runChecks SimpleURL.parse SimpleURL.resolve prompt_world 50
        ["http://a.example/"] default_options
      = Returned rs st).
Proof.
  split.
  - apply (runChecks_returns_iff_no_url SimpleURL.parse SimpleURL.resolve
             prompt_world 0 [] default_options). reflexivity.
  - intros Hret.
    apply (runChecks_returns_iff_no_url SimpleURL.parse SimpleURL.resolve
             prompt_world 49 ["http://a.example/"] default_options) in Hret.
    discriminate.
Defined.

(** X19: ten URLs under [--concurrent -1]. *)
Lemma runChecks_closed_limit_starts_nothing_witness :
  runChecks SimpleURL.parse SimpleURL.resolve prompt_world 50 ten_urls
    (set_concurrent (-1) default_options)
  = Spinning (initial_state ten_urls).
Proof.
  apply (runChecks_closed_limit_starts_nothing SimpleURL.parse SimpleURL.resolve
           prompt_world 50 ten_urls (set_concurrent (-1) default_options)).
  - vm_compute. discriminate.
  - discriminate.
Defined.

(** X20: ten URLs under [--quiet]. *)
Lemma runChecks_quiet_prints_nothing_witness :
  console (state_of (runChecks SimpleURL.parse SimpleURL.resolve prompt_world 50
                       ten_urls (set_quiet true limit_three)))
  = [].
Proof.
  apply (runChecks_quiet_prints_nothing SimpleURL.parse SimpleURL.resolve
           prompt_world 50 ten_urls (set_quiet true limit_three)).
  reflexivity.
Defined.

(** X22: a good URL followed by a line of a URL file that is no URL. *)
Lemma runChecks_throws_on_unparsed_url_witness :
  exists st,
    runChecks SimpleURL.parse SimpleURL.resolve second_first 50
      (["http://a.example/"] ++ "https://not a url" :: ["http://b.example/"])
      default_options
    = Threw "Invalid URL" st
    /\ results st = [] /\ console st = [].
Proof.
  apply (runChecks_throws_on_unparsed_url SimpleURL.parse SimpleURL.resolve
           second_first 49 ["http://a.example/"] "https://not a url"
           ["http://b.example/"] default_options).
  - reflexivity.
  - reflexivity.
  - reflexivity.
Defined.

(** X23: a URL file whose second line is no URL. *)
Lemma main_stops_on_unparsed_file_url_witness :
  main SimpleURL.parse SimpleURL.resolve no_json write_ok
    (one_file "urls.txt"
       ("a.example/" +:+ String JS.newline ("not a url" +:+ String JS.newline "")))
    second_first 50 ["--file"; "urls.txt"]
  = Ran {| stdout :=
             [COLORS.cyan +:+ "Checking "
                +:+ JS.num_to_string
                      (Z.of_nat (length (["https://a.example/"]
                                         ++ "https://not a url" :: [])))
                +:+ " URL(s)..." +:+ COLORS.reset +:+ String JS.newline ""];
           stderr := [COLORS.red +:+ "Error: " +:+ "Invalid URL" +:+ COLORS.reset];
           saved := None;
           exit_code := Some 1 |}.
Proof.
  apply (main_stops_on_unparsed_file_url SimpleURL.parse SimpleURL.resolve
           no_json write_ok
           (one_file "urls.txt"
              ("a.example/" +:+ String JS.newline ("not a url" +:+ String JS.newline "")))
           second_first 49 ["--file"; "urls.txt"]
           (set_file (Some "urls.txt") default_options) "urls.txt"
           ["https://a.example/"; "https://not a url"]
           ["https://a.example/"] "https://not a url" []).
  - vm_compute. reflexivity.
  - reflexivity.
  - discriminate.
  - vm_compute. reflexivity.
  - reflexivity.
  - reflexivity.
  - reflexivity.
  - reflexivity.
Defined.


(** X25: the results of statuses 200, 200, 404 and 0 and an error with
    a comma. *)
Lemma csv_export_round_trip_without_quotes_witness :
  exists content,
    export_content no_json (mixed_results ++ [comma_error]) "csv" = inl content
    /\ CSV.parse content
       = Some (csv_header_fields :: map csv_fields (mixed_results ++ [comma_error])).
Proof.
  apply (csv_export_round_trip_without_quotes no_json (mixed_results ++ [comma_error])).
  repeat constructor.
Defined.

(** X27: a 302 under [--max-redirects -1]. *)
Lemma checkURL_ceiling_below_one_follows_nothing_witness :
  snd (checkURL SimpleURL.parse SimpleURL.resolve "http://a.example/"
         (set_maxRedirects (-1) default_options) 1
         (Responded 302 {[ "location" := "http://b.example/" ]} "moved" 5 :: []))
  = Resolved {| url := "http://a.example/"; status := 302;
                statusText := default "Unknown" (STATUS_CODES 302);
                responseTime := 5; size := Z.of_nat (String.length "moved");
                result_headers := {[ "location" := "http://b.example/" ]};
                redirects := []; error := None |}.
Proof.
  apply (proj2 (checkURL_ceiling_below_one_follows_nothing SimpleURL.parse
                  SimpleURL.resolve (set_maxRedirects (-1) default_options)
                  ltac:(reflexivity))
           "http://a.example/" a_example).
  reflexivity.
Defined.
